(** * Black-Scholes dashboard: pricing, Greeks, curve and heatmap grids

    A shallow embedding of [src/app.py].  The numeric code of the script
    is written once, over an interface [Numeric] that names the
    operations the script takes from Python, numpy and scipy.  Three
    instances interpret it:

    - [R_numeric]: exact real arithmetic, with [norm_pdf] and [norm_cdf]
      the density and the distribution function of the standard normal
      law.  The identities, derivatives, limits and non-strict bounds of
      the pricing formulas are stated and proved there.
    - [PR_numeric]: partial reals ([option R]), where a division by zero,
      a logarithm of a non-positive number and a square root of a
      negative number are marked.  It serves to show that on the ranges
      of the sliders no such operation is reached.
    - [X_numeric]: the reals extended with the special values of
      binary64 (plus and minus infinity, nan), with the results of
      [norm.cdf] and [norm.pdf] rounded at the two ends of their range.
      It says what the functions return at [T = 0] and [sigma = 0], and
      where the Greeks reach the ends of their intervals.

    Statements about the shape of the computation (which branch runs,
    how many points a grid has, which cell a loop writes) are proved for
    every instance, so they hold for any arithmetic, the binary64 one
    of the script included.  The rounding of binary64 inside its range
    is not modelled.

    Contents: the program; the three number models; the supporting
    theory (lists and grids, integrals of continuous functions, the
    Gaussian integral, the distribution function, monotonicity in the
    spot, small volatility, numerical enclosures, special values and
    saturation); the properties of the specification; further properties
    of the code (the Greeks as derivatives of the prices, signs and
    bounds, inputs the script does not check, the dashboard on the
    ranges of its sliders, the heatmap loops on any grid). *)

From Stdlib Require Import Reals Lra Lia List String QArith Qreals Bool Arith.
Import ListNotations.
Close Scope Q_scope.

Set Implicit Arguments.

(** ** The numeric interface *)

Class Numeric (A : Type) : Type := {
  lit : Q -> A;                 (* a numeric literal of the script *)
  add : A -> A -> A;
  sub : A -> A -> A;
  mul : A -> A -> A;
  div : A -> A -> A;
  neg : A -> A;
  power : A -> nat -> A;        (* [x ** n] *)
  np_log : A -> A;
  np_sqrt : A -> A;
  np_exp : A -> A;
  norm_cdf : A -> A;            (* [si.norm.cdf] *)
  norm_pdf : A -> A             (* [si.norm.pdf] *)
}.

Declare Scope num_scope.
Delimit Scope num_scope with num.
Infix "+" := add : num_scope.
Infix "-" := sub : num_scope.
Infix "*" := mul : num_scope.
Infix "/" := div : num_scope.
Notation "- x" := (neg x) : num_scope.
Infix "**" := power (at level 30, right associativity) : num_scope.

(** The five values [option_greeks] returns, in the order of its
    [return] statement. *)
Record Greeks (A : Type) : Type := mkGreeks {
  Delta : A; Gamma : A; Vega : A; Theta : A; Rho : A
}.

(** Python's [enumerate]. *)
Fixpoint enumerate_from {X : Type} (n : nat) (l : list X) : list (nat * X) :=
  match l with
  | [] => []
  | x :: l' => (n, x) :: enumerate_from (S n) l'
  end.

Definition enumerate {X : Type} (l : list X) : list (nat * X) :=
  enumerate_from 0 l.

(** Assignment to one position of a list; out of range the list is
    unchanged (the loops below never leave the range). *)
Fixpoint set_nth {X : Type} (n : nat) (v : X) (l : list X) : list X :=
  match l, n with
  | [], _ => []
  | _ :: l', O => v :: l'
  | x :: l', S n' => x :: set_nth n' v l'
  end.

(** [m[i, j] = v] on a matrix stored by rows. *)
Definition set_cell {X : Type} (i j : nat) (v : X) (m : list (list X))
  : list (list X) :=
  match nth_error m i with
  | Some row => set_nth i (set_nth j v row) m
  | None => m
  end.

Definition get_cell {X : Type} (m : list (list X)) (i j : nat) : option X :=
  match nth_error m i with
  | Some row => nth_error row j
  | None => None
  end.

Section Program.

Context {A : Type} `{Numeric A}.
Local Open Scope num_scope.

Definition of_nat (n : nat) : A := lit (inject_Z (Z.of_nat n)).

(** *** Pricing functions *)

Definition black_scholes_call (S K T r sigma : A) : A :=
  let d1 := (np_log (S / K) + (r + lit 0.5%Q * sigma ** 2) * T)
            / (sigma * np_sqrt T) in
  let d2 := d1 - sigma * np_sqrt T in
  S * norm_cdf d1 - K * np_exp (- r * T) * norm_cdf d2.

Definition black_scholes_put (S K T r sigma : A) : A :=
  let d1 := (np_log (S / K) + (r + lit 0.5%Q * sigma ** 2) * T)
            / (sigma * np_sqrt T) in
  let d2 := d1 - sigma * np_sqrt T in
  K * np_exp (- r * T) * norm_cdf (- d2) - S * norm_cdf (- d1).

(** *** Greeks *)

Definition option_greeks (S K T r sigma : A) (option : string) : Greeks A :=
  let d1 := (np_log (S / K) + (r + lit 0.5%Q * sigma ** 2) * T)
            / (sigma * np_sqrt T) in
  let d2 := d1 - sigma * np_sqrt T in
  let pdf := norm_pdf d1 in
  let '(Delta, Theta, Rho) :=
    if String.eqb option "call" then
      (norm_cdf d1,
       - (S * pdf * sigma) / (lit 2%Q * np_sqrt T)
         - r * K * np_exp (- r * T) * norm_cdf d2,
       K * T * np_exp (- r * T) * norm_cdf d2)
    else
      (norm_cdf d1 - lit 1%Q,
       - (S * pdf * sigma) / (lit 2%Q * np_sqrt T)
         + r * K * np_exp (- r * T) * norm_cdf (- d2),
       - K * T * np_exp (- r * T) * norm_cdf (- d2)) in
  let Gamma := pdf / (S * sigma * np_sqrt T) in
  let Vega := S * pdf * np_sqrt T in
  mkGreeks Delta Gamma Vega Theta Rho.

(** *** numpy helpers *)

(** [np.linspace(start, stop, num)] with the default [endpoint=True], as
    numpy computes it for [num >= 2] (the script asks for 8 and for 100
    samples): [arange(0, num) * step + start] with
    [step = (stop - start) / (num - 1)], and the last sample then set to
    [stop]. *)
Definition linspace (start stop : A) (num : nat) : list A :=
  let step := (stop - start) / of_nat (num - 1) in
  let y := map (fun i => of_nat i * step + start) (seq 0 num) in
  match num with
  | O | S O => y
  | _ => set_nth (num - 1) stop y
  end.

(** [np.zeros((rows, cols))]. *)
Definition zeros (rows cols : nat) : list (list A) :=
  repeat (repeat (lit 0%Q) cols) rows.

(** *** Heatmap *)

(** The price the inner loop body computes for one grid point. *)
Definition heatmap_price (K T r : A) (option : string) (S sig : A) : A :=
  if String.eqb option "call" then black_scholes_call S K T r sig
  else black_scholes_put S K T r sig.

(** The two nested loops of [plot_pnl_heatmap], over an arbitrary store:
    [write i j v st] is the effect of [pnl[i, j] = v]. *)
Definition heatmap_loops {St : Type} (write : nat -> nat -> A -> St -> St)
    (K T r purchase_price : A) (option : string)
    (S_vals sigma_vals : list A) (st : St) : St :=
  fold_left
    (fun st i_S =>
       let i := fst i_S in
       let S := snd i_S in
       fold_left
         (fun st j_sig =>
            let j := fst j_sig in
            let sig := snd j_sig in
            let price := heatmap_price K T r option S sig in
            write i j (price - purchase_price) st)
         (enumerate sigma_vals) st)
    (enumerate S_vals) st.

Definition heatmap_S_vals : list A := linspace (lit 50%Q) (lit 150%Q) 8.
Definition heatmap_sigma_vals : list A := linspace (lit 0.1%Q) (lit 0.6%Q) 8.

(** The matrix [pnl] handed to the plotting library. *)
Definition plot_pnl_heatmap (K T r purchase_price : A) (option : string)
  : list (list A) :=
  let S_vals := heatmap_S_vals in
  let sigma_vals := heatmap_sigma_vals in
  let pnl := zeros (List.length S_vals) (List.length sigma_vals) in
  heatmap_loops set_cell K T r purchase_price option S_vals sigma_vals pnl.

(** The same loops run on a log of the assignments, oldest first. *)
Definition heatmap_writes (K T r purchase_price : A) (option : string)
  : list (nat * nat * A) :=
  heatmap_loops (fun i j v log => log ++ [(i, j, v)])
    K T r purchase_price option heatmap_S_vals heatmap_sigma_vals [].

(** *** Greek curves *)

Definition curve_S_vals : list A := linspace (lit 50%Q) (lit 150%Q) 100.

(** One iteration of the loop of [plot_greek_curve]: the [if]/[elif]
    chain appends at most one value. *)
Definition curve_step (K T r sigma : A) (greek option : string)
    (values : list A) (S : A) : list A :=
  let g := option_greeks S K T r sigma option in
  if String.eqb greek "Delta" then values ++ [Delta g]
  else if String.eqb greek "Gamma" then values ++ [Gamma g]
  else if String.eqb greek "Vega" then values ++ [Vega g]
  else if String.eqb greek "Theta" then values ++ [Theta g]
  else if String.eqb greek "Rho" then values ++ [Rho g]
  else values.

(** The list [values] handed to the plotting library. *)
Definition plot_greek_curve (K T r sigma : A) (greek option : string)
  : list A :=
  fold_left (curve_step K T r sigma greek option) curve_S_vals [].

(** *** The script's top level *)

(** The choices of the radio selector and of the drop-down. *)
Definition option_type_choices : list string := ["Call"; "Put"]%string.
Definition greek_choices : list string :=
  ["Delta"; "Gamma"; "Vega"; "Theta"; "Rho"]%string.

Record Dashboard : Type := mkDashboard {
  call_price : A;
  put_price : A;
  shown_greeks : Greeks A;
  shown_curve : list A;
  shown_heatmap : list (list A)
}.

Definition dashboard (S K T r sigma purchase_price : A)
    (option_type greek_choice : string) : Dashboard :=
  mkDashboard
    (black_scholes_call S K T r sigma)
    (black_scholes_put S K T r sigma)
    (option_greeks S K T r sigma option_type)
    (plot_greek_curve K T r sigma greek_choice option_type)
    (plot_pnl_heatmap K T r purchase_price option_type).

End Program.

(** ** Exact real arithmetic *)

(** The integral of a continuous function between any two bounds, in
    either order. *)
Lemma continuity_integrable (f : R -> R) (Hc : continuity f) (a b : R) :
  Riemann_integrable f a b.
Proof.
  destruct (Rle_dec a b) as [Hab | Hab].
  - apply continuity_implies_RiemannInt; [exact Hab | intros x _; apply Hc].
  - apply RiemannInt_P1, continuity_implies_RiemannInt;
      [lra | intros x _; apply Hc].
Qed.

Definition Rint (f : R -> R) (Hc : continuity f) (a b : R) : R :=
  RiemannInt (continuity_integrable Hc a b).

(** [si.norm.pdf]: scipy evaluates [exp(-x**2/2) / sqrt(2*pi)]. *)
Definition norm_pdf_R (x : R) : R := (exp (- x ^ 2 / 2) / sqrt (2 * PI))%R.

Lemma norm_pdf_R_continuity : continuity norm_pdf_R.
Proof.
  apply derivable_continuous.
  unfold norm_pdf_R, Rdiv.
  set (c := (/ sqrt (2 * PI))%R).
  reg.
Qed.

(** [si.norm.cdf]: the distribution function of the standard normal law,
    the integral of the density from minus infinity.  One half of the
    mass lies below [0], so it is [1/2] plus the integral from [0]
    ([norm_cdf_R_improper] below proves that this is the improper
    integral). *)
Definition norm_cdf_R (x : R) : R :=
  (1 / 2 + Rint norm_pdf_R_continuity 0 x)%R.

#[export] Instance R_numeric : Numeric R := {|
  lit := Q2R;
  add := Rplus;
  sub := Rminus;
  mul := Rmult;
  div := Rdiv;
  neg := Ropp;
  power := pow;
  np_log := ln;
  np_sqrt := sqrt;
  np_exp := exp;
  norm_cdf := norm_cdf_R;
  norm_pdf := norm_pdf_R
|}.

(** ** Partial reals: where the formulas are undefined *)

(** [None] marks that a division by zero, a logarithm of a non-positive
    number or a square root of a negative number was reached.  What
    numpy goes on to compute after such an operation is the subject of
    the next model. *)
Definition PR : Type := option R.

Definition pr_lift1 (f : R -> R) (x : PR) : PR :=
  match x with Some a => Some (f a) | None => None end.

Definition pr_lift2 (f : R -> R -> R) (x y : PR) : PR :=
  match x, y with Some a, Some b => Some (f a b) | _, _ => None end.

Definition pr_div (x y : PR) : PR :=
  match x, y with
  | Some a, Some b => if Req_dec_T b 0 then None else Some (a / b)%R
  | _, _ => None
  end.

Definition pr_log (x : PR) : PR :=
  match x with
  | Some a => if Rlt_dec 0 a then Some (ln a) else None
  | None => None
  end.

Definition pr_sqrt (x : PR) : PR :=
  match x with
  | Some a => if Rle_dec 0 a then Some (sqrt a) else None
  | None => None
  end.

#[export] Instance PR_numeric : Numeric PR := {|
  lit := fun q => Some (Q2R q);
  add := pr_lift2 Rplus;
  sub := pr_lift2 Rminus;
  mul := pr_lift2 Rmult;
  div := pr_div;
  neg := pr_lift1 Ropp;
  power := fun x n => pr_lift1 (fun a => pow a n) x;
  np_log := pr_log;
  np_sqrt := pr_sqrt;
  np_exp := pr_lift1 exp;
  norm_cdf := pr_lift1 norm_cdf_R;
  norm_pdf := pr_lift1 norm_pdf_R
|}.

(** ** Binary64 special values and saturation *)

(** What numpy and scipy return where the reals have no answer, and at
    the two ends of the range of [norm.cdf] and [norm.pdf].  A value is
    a finite number, plus or minus infinity, or nan.  The operations
    follow IEEE 754 on the special values: a non-zero number divided by
    zero is an infinity, [0/0], [inf - inf] and [0 * inf] are nan, nan
    propagates; numpy reports the singular cases with a RuntimeWarning
    and goes on computing.  On finite numbers the arithmetic, [np.log],
    [np.sqrt] and [np.exp] are kept exact: rounding inside the binary64
    range and overflow are not modelled, nor is the sign of a zero (the
    zero divisors met below are products of non-negative numbers, that
    is [+0.0]).  The divisions by [sigma * np.sqrt(T)] are numpy's,
    their operands being numpy numbers; the division [S / K] is
    Python's when both are Python numbers and raises ZeroDivisionError
    at [K = 0], which is why the statements below take [K > 0]. *)
Inductive xreal : Type :=
| Fin (x : R)
| PInf
| NInf
| NaN.

Definition xr_neg (x : xreal) : xreal :=
  match x with
  | Fin a => Fin (- a)%R
  | PInf => NInf
  | NInf => PInf
  | NaN => NaN
  end.

Definition xr_add (x y : xreal) : xreal :=
  match x, y with
  | NaN, _ | _, NaN => NaN
  | Fin a, Fin b => Fin (a + b)%R
  | PInf, NInf | NInf, PInf => NaN
  | PInf, _ | _, PInf => PInf
  | NInf, _ | _, NInf => NInf
  end.

Definition xr_sub (x y : xreal) : xreal := xr_add x (xr_neg y).

(** An infinity times a finite number. *)
Definition inf_times (i : xreal) (a : R) : xreal :=
  match total_order_T a 0 with
  | inleft (left _) => xr_neg i
  | inleft (right _) => NaN
  | inright _ => i
  end.

Definition xr_mul (x y : xreal) : xreal :=
  match x, y with
  | NaN, _ | _, NaN => NaN
  | Fin a, Fin b => Fin (a * b)%R
  | Fin a, i => inf_times i a
  | i, Fin b => inf_times i b
  | PInf, PInf | NInf, NInf => PInf
  | PInf, NInf | NInf, PInf => NInf
  end.

(** A finite number divided by zero. *)
Definition over_zero (a : R) : xreal :=
  match total_order_T a 0 with
  | inleft (left _) => NInf
  | inleft (right _) => NaN
  | inright _ => PInf
  end.

Definition xr_div (x y : xreal) : xreal :=
  match x, y with
  | NaN, _ | _, NaN => NaN
  | Fin a, Fin b => if Req_dec_T b 0 then over_zero a else Fin (a / b)%R
  | Fin _, _ => Fin 0
  | i, Fin b => if Rle_dec 0 b then i else xr_neg i
  | _, _ => NaN
  end.

Fixpoint xr_pow (x : xreal) (n : nat) : xreal :=
  match n with
  | O => Fin 1
  | S n' => xr_mul x (xr_pow x n')
  end.

Definition xr_log (x : xreal) : xreal :=
  match x with
  | Fin a =>
      match total_order_T a 0 with
      | inleft (left _) => NaN
      | inleft (right _) => NInf
      | inright _ => Fin (ln a)
      end
  | PInf => PInf
  | _ => NaN
  end.

Definition xr_sqrt (x : xreal) : xreal :=
  match x with
  | Fin a => if Rle_dec 0 a then Fin (sqrt a) else NaN
  | PInf => PInf
  | _ => NaN
  end.

Definition xr_exp (x : xreal) : xreal :=
  match x with
  | Fin a => Fin (exp a)
  | PInf => PInf
  | NInf => Fin 0
  | NaN => NaN
  end.

(** The ends of the range.  The smallest positive binary64 number is
    [2^-1074] and the largest one below [1] is [1 - 2^-53]; rounding to
    nearest, ties to even, returns [0] for a result of at most
    [2^-1075] and [1] for a result of at least [1 - 2^-54].  Between
    the two thresholds a result is kept as it is.  The statements that
    name a returned [0] or [1] take [d1] beyond [40] in absolute value,
    where the tail of the law is below [exp (-800)], far under both
    thresholds. *)
Definition flush (y : R) : R :=
  if Rle_dec y (/ 2 ^ 1075) then 0%R else y.

Definition round_unit (y : R) : R :=
  if Rle_dec (1 - / 2 ^ 54) y then 1%R else flush y.

Definition xr_cdf (x : xreal) : xreal :=
  match x with
  | Fin a => Fin (round_unit (norm_cdf_R a))
  | PInf => Fin 1
  | NInf => Fin 0
  | NaN => NaN
  end.

Definition xr_pdf (x : xreal) : xreal :=
  match x with
  | Fin a => Fin (flush (norm_pdf_R a))
  | PInf | NInf => Fin 0
  | NaN => NaN
  end.

#[export] Instance X_numeric : Numeric xreal := {|
  lit := fun q => Fin (Q2R q);
  add := xr_add;
  sub := xr_sub;
  mul := xr_mul;
  div := xr_div;
  neg := xr_neg;
  power := xr_pow;
  np_log := xr_log;
  np_sqrt := xr_sqrt;
  np_exp := xr_exp;
  norm_cdf := xr_cdf;
  norm_pdf := xr_pdf
|}.

(** * Supporting theory *)

(** ** Shape of the computation, for every numeric instance *)

Section Shape.

Context {A : Type} `{Numeric A}.
Local Open Scope num_scope.

Lemma fold_left_app_one {X Y : Type} (f : X -> Y) (l : list X) (acc : list Y) :
  fold_left (fun vs x => vs ++ [f x]) l acc = acc ++ map f l.
Proof.
  revert acc; induction l as [| x l IH]; intros acc; simpl.
  - now rewrite app_nil_r.
  - now rewrite IH, <- app_assoc.
Qed.

Lemma linspace_length (start stop : A) (num : nat) :
  List.length (linspace start stop num) = num.
Proof.
  unfold linspace.
  assert (Hy : forall f : nat -> A, List.length (map f (seq 0 num)) = num)
    by (intros f; now rewrite length_map, length_seq).
  assert (Hs : forall (X : Type) n (v : X) l,
             List.length (set_nth n v l) = List.length l).
  { intros X n v l; revert n; induction l as [| x l IH]; intros [| n];
      simpl; auto. }
  destruct num as [| [| n]]; try apply Hy.
  now rewrite Hs, Hy.
Qed.

End Shape.

Section Grids.

Context {A : Type} `{Numeric A}.
Local Open Scope num_scope.

Lemma set_nth_nth_error {X : Type} (l : list X) (n k : nat) (v : X) :
  (n < List.length l)%nat ->
  nth_error (set_nth n v l) k
  = if Nat.eqb k n then Some v else nth_error l k.
Proof.
  revert n k; induction l as [| x l IH]; intros n k Hn; simpl in Hn.
  - lia.
  - destruct n as [| n], k as [| k]; simpl; try reflexivity.
    apply IH; lia.
Qed.

(** The samples of [linspace]: an arithmetic progression from [start],
    with the last sample equal to [stop]. *)
Lemma linspace_nth_error (start stop : A) (num k : nat) :
  (2 <= num)%nat -> (k < num)%nat ->
  nth_error (linspace start stop num) k
  = Some (if Nat.eqb k (num - 1) then stop
          else of_nat k * ((stop - start) / of_nat (num - 1)) + start).
Proof.
  intros Hnum Hk. unfold linspace.
  destruct num as [| [| n]]; try lia.
  rewrite set_nth_nth_error by (rewrite length_map, length_seq; lia).
  destruct (Nat.eqb k (S (S n) - 1)); [reflexivity |].
  rewrite nth_error_map, nth_error_seq.
  destruct (Nat.ltb_spec k (S (S n))) as [_ | Hge]; [| lia].
  reflexivity.
Qed.

End Grids.

Section Heatmap.

Context {A : Type} `{Numeric A}.
Local Open Scope num_scope.

Lemma get_cell_map2 {X Y Z : Type} (f : X -> Y -> Z) (xs : list X)
    (ys : list Y) (dx : X) (dy : Y) (i j : nat) :
  (i < List.length xs)%nat -> (j < List.length ys)%nat ->
  get_cell (map (fun x => map (f x) ys) xs) i j
  = Some (f (nth i xs dx) (nth j ys dy)).
Proof.
  intros Hi Hj. unfold get_cell.
  rewrite nth_error_map, (nth_error_nth' xs dx Hi). simpl.
  rewrite nth_error_map, (nth_error_nth' ys dy Hj). reflexivity.
Qed.

(** After the two loops the matrix holds, row by row, the price at each
    grid point minus the purchase price. *)
Lemma plot_pnl_heatmap_matrix (K T r purchase_price : A) (option : string) :
  plot_pnl_heatmap K T r purchase_price option
  = map (fun S =>
           map (fun sig => heatmap_price K T r option S sig - purchase_price)
               heatmap_sigma_vals)
        heatmap_S_vals.
Proof. reflexivity. Qed.

(** The assignments the loops perform, in order: row by row, one per
    cell. *)
Lemma heatmap_writes_list (K T r purchase_price : A) (option : string) :
  heatmap_writes K T r purchase_price option
  = flat_map
      (fun i_S =>
         map (fun j_sig =>
                (fst i_S, fst j_sig,
                 heatmap_price K T r option (snd i_S) (snd j_sig)
                 - purchase_price))
             (enumerate heatmap_sigma_vals))
      (enumerate heatmap_S_vals).
Proof. reflexivity. Qed.

End Heatmap.

Local Open Scope R_scope.

(** ** Integrals of continuous functions *)

Section Integrals.

Variable f : R -> R.
Hypothesis Hc : continuity f.

Lemma Rint_eq (a b : R) (pr : Riemann_integrable f a b) :
  Rint Hc a b = RiemannInt pr.
Proof. apply RiemannInt_P5. Qed.

Lemma Rint_refl (a : R) : Rint Hc a a = 0.
Proof. apply RiemannInt_P9. Qed.

Lemma Rint_swap (a b : R) : Rint Hc a b = - Rint Hc b a.
Proof. apply RiemannInt_P8. Qed.

Lemma Rint_chasles (a b c : R) : Rint Hc a b + Rint Hc b c = Rint Hc a c.
Proof. apply RiemannInt_P26. Qed.

(** The integral as a function of its upper bound is a primitive. *)
Lemma Rint_derivable (a x : R) :
  derivable_pt_lim (fun y => Rint Hc a y) x (f x).
Proof.
  set (lo := Rmin a x - 1). set (hi := Rmax a x + 1).
  assert (Hlo : lo < a /\ lo < x).
  { unfold lo. split; [pose proof (Rmin_l a x) | pose proof (Rmin_r a x)]; lra. }
  assert (Hhi : a < hi /\ x < hi).
  { unfold hi. split; [pose proof (Rmax_l a x) | pose proof (Rmax_r a x)]; lra. }
  assert (h : lo <= hi) by lra.
  assert (C0 : forall y, lo <= y <= hi -> continuity_pt f y)
    by (intros y _; apply Hc).
  set (P := primitive h (FTC_P1 h C0)).
  assert (HP : forall z, lo <= z <= hi -> P z = Rint Hc lo z).
  { intros z [Hz1 Hz2]. unfold P, primitive.
    destruct (Rle_dec lo z) as [r1 | n1]; [| contradiction].
    destruct (Rle_dec z hi) as [r2 | n2]; [| contradiction].
    symmetry. apply Rint_eq. }
  apply derivable_pt_lim_locally_ext
    with (f := fun z => P z - P a) (a := lo) (b := hi).
  - lra.
  - intros z Hz. rewrite !HP by lra.
    rewrite <- (Rint_chasles lo a z). ring.
  - replace (f x) with (f x - 0) by ring.
    apply (derivable_pt_lim_minus P (fun _ => P a)).
    + apply RiemannInt_P28. lra.
    + apply derivable_pt_lim_const.
Qed.

(** Newton-Leibniz: any primitive computes the integral. *)
Lemma Rint_primitive (F : R -> R) (a b : R) :
  (forall x, derivable_pt_lim F x (f x)) ->
  Rint Hc a b = F b - F a.
Proof.
  intros HF.
  set (g := fun y => Rint Hc a y - F y).
  assert (Hg : forall x, derivable_pt_lim g x 0).
  { intros x. replace 0 with (f x - f x) by ring.
    apply (derivable_pt_lim_minus (fun y => Rint Hc a y) F);
      [apply Rint_derivable | apply HF]. }
  assert (Hd : derivable g) by (intros x; exists 0; apply Hg).
  assert (Hk : constant g).
  { apply (null_derivative_1 g Hd). intros x.
    apply derive_pt_eq_0, Hg. }
  specialize (Hk b a). unfold g in Hk. rewrite Rint_refl in Hk. lra.
Qed.

Lemma Rint_le_const (a b m : R) :
  a <= b -> (forall x, a <= x <= b -> f x <= m) -> Rint Hc a b <= m * (b - a).
Proof.
  intros Hab Hm.
  rewrite <- (RiemannInt_P15 (RiemannInt_P14 a b m)).
  apply RiemannInt_P19; [exact Hab |].
  intros x Hx. apply Hm. lra.
Qed.

Lemma Rint_ge_const (a b m : R) :
  a <= b -> (forall x, a <= x <= b -> m <= f x) -> m * (b - a) <= Rint Hc a b.
Proof.
  intros Hab Hm.
  rewrite <- (RiemannInt_P15 (RiemannInt_P14 a b m)).
  apply RiemannInt_P19; [exact Hab |].
  intros x Hx. apply Hm. lra.
Qed.

End Integrals.

Lemma Rint_ext (f g : R -> R) (Hf : continuity f) (Hg : continuity g)
    (a b : R) :
  (forall x, f x = g x) -> Rint Hf a b = Rint Hg a b.
Proof.
  intros Hfg.
  assert (Hd : forall x, derivable_pt_lim (fun y => Rint Hg a y) x (f x))
    by (intros x; rewrite Hfg; apply Rint_derivable).
  rewrite (@Rint_primitive f Hf _ a b Hd), Rint_refl. ring.
Qed.

Lemma Rint_scal (f : R -> R) (Hf : continuity f) (c : R)
    (Hcf : continuity (fun x => c * f x)) (a b : R) :
  Rint Hcf a b = c * Rint Hf a b.
Proof.
  assert (Hd : forall x,
             derivable_pt_lim (fun y => c * Rint Hf a y) x (c * f x)).
  { intros x. apply derivable_pt_lim_scal, Rint_derivable. }
  rewrite (@Rint_primitive _ Hcf _ a b Hd), Rint_refl. ring.
Qed.

(** ** The standard normal law *)

(** The Gaussian kernel and its integral from [0]. *)
Definition gauss (t : R) : R := exp (- t ^ 2 / 2).

Lemma gauss_derivable (t : R) :
  derivable_pt_lim gauss t (- t * gauss t).
Proof.
  unfold gauss.
  replace (- t * exp (- t ^ 2 / 2))
    with (exp (- t ^ 2 / 2) * (- (INR 2 * t ^ 1) * / 2))
    by (simpl; field).
  apply (derivable_pt_lim_comp (fun t => - t ^ 2 * / 2) exp).
  - apply (derivable_pt_lim_scal_right (fun t => - t ^ 2)).
    apply (derivable_pt_lim_opp (fun t => t ^ 2)).
    apply (derivable_pt_lim_pow t 2).
  - apply derivable_pt_lim_exp.
Qed.

Lemma gauss_continuity : continuity gauss.
Proof.
  apply derivable_continuous. intros t.
  exists (- t * gauss t). apply gauss_derivable.
Qed.

Definition gauss_int (x : R) : R := Rint gauss_continuity 0 x.

Lemma gauss_pos (t : R) : 0 < gauss t.
Proof. apply exp_pos. Qed.

Lemma gauss_even (t : R) : gauss (- t) = gauss t.
Proof. unfold gauss. apply (f_equal exp). field. Qed.

Lemma gauss_le_1 (t : R) : gauss t <= 1.
Proof.
  unfold gauss. rewrite <- exp_0.
  destruct (Req_dec t 0) as [-> | Ht].
  - right. apply (f_equal exp). field.
  - left. apply exp_increasing.
    assert (0 < t ^ 2) by nra. lra.
Qed.

Lemma gauss_int_derivable (x : R) :
  derivable_pt_lim gauss_int x (gauss x).
Proof. apply Rint_derivable. Qed.

Lemma gauss_int_0 : gauss_int 0 = 0.
Proof. apply Rint_refl. Qed.

(** A function whose derivative vanishes everywhere is constant. *)
Lemma zero_derivative_constant (F : R -> R) :
  (forall x, derivable_pt_lim F x 0) -> forall x y, F x = F y.
Proof.
  intros HF.
  assert (Hd : derivable F) by (intros x; exists 0; apply HF).
  apply (null_derivative_1 F Hd). intros x.
  apply derive_pt_eq_0, HF.
Qed.

Lemma Ropp_derivable (x : R) : derivable_pt_lim Ropp x (-1).
Proof.
  change Ropp with (- id)%F.
  apply derivable_pt_lim_opp, derivable_pt_lim_id.
Qed.

Lemma gauss_int_odd (x : R) : gauss_int (- x) = - gauss_int x.
Proof.
  set (F := fun y => gauss_int y + gauss_int (- y)).
  assert (HF : forall y, derivable_pt_lim F y 0).
  { intros y. replace 0 with (gauss y + gauss (- y) * (-1))
      by (rewrite gauss_even; ring).
    apply (derivable_pt_lim_plus gauss_int (fun y => gauss_int (- y))).
    - apply gauss_int_derivable.
    - apply (derivable_pt_lim_comp Ropp gauss_int).
      + apply Ropp_derivable.
      + apply gauss_int_derivable. }
  pose proof (zero_derivative_constant HF x 0) as Hx.
  unfold F in Hx. rewrite Ropp_0, gauss_int_0 in Hx. lra.
Qed.

Lemma sqrt_2PI_pos : 0 < sqrt (2 * PI).
Proof. apply sqrt_lt_R0. pose proof PI_RGT_0. lra. Qed.

Lemma norm_pdf_R_gauss (x : R) : norm_pdf_R x = / sqrt (2 * PI) * gauss x.
Proof. unfold norm_pdf_R, gauss. field. apply Rgt_not_eq, sqrt_2PI_pos. Qed.

Lemma norm_cdf_R_gauss (x : R) :
  norm_cdf_R x = 1 / 2 + gauss_int x / sqrt (2 * PI).
Proof.
  unfold norm_cdf_R, gauss_int.
  assert (Hs : continuity (fun t => / sqrt (2 * PI) * gauss t)).
  { apply continuity_scal, gauss_continuity. }
  rewrite (Rint_ext norm_pdf_R_continuity Hs 0 x norm_pdf_R_gauss).
  rewrite (Rint_scal gauss_continuity). unfold Rdiv. ring.
Qed.

(** The density is the derivative of the distribution function. *)
Lemma norm_cdf_R_derivable (x : R) :
  derivable_pt_lim norm_cdf_R x (norm_pdf_R x).
Proof.
  unfold norm_cdf_R.
  replace (norm_pdf_R x) with (0 + norm_pdf_R x) by ring.
  apply (derivable_pt_lim_plus (fun _ => 1 / 2)
           (fun y => Rint norm_pdf_R_continuity 0 y)).
  - apply derivable_pt_lim_const.
  - apply Rint_derivable.
Qed.

(** The law is symmetric about [0]. *)
Lemma norm_cdf_R_opp (x : R) : norm_cdf_R (- x) = 1 - norm_cdf_R x.
Proof.
  rewrite !norm_cdf_R_gauss, gauss_int_odd. field.
  apply Rgt_not_eq, sqrt_2PI_pos.
Qed.

(** ** The Gaussian integral

    With [J x] the integral of the kernel from [0] to [x] and
    [A x] the integral over [0 <= t <= 1] of
    [exp (- x^2 (1 + t^2) / 2) / (1 + t^2)], the function
    [J^2 + 2 A] has derivative zero, so it is the constant [2 A 0 = PI / 2];
    and [0 < A x <= gauss x]. *)

Lemma exp_taylor2 (y : R) : y <= 1 / 2 -> 0 <= exp y - 1 - y <= 2 * y ^ 2.
Proof.
  intros Hy. split.
  - pose proof (exp_ineq1_le y). lra.
  - pose proof (exp_ineq1_le (- y)) as Hm.
    assert (Hpos : 0 < 1 - y) by lra.
    assert (Hinv : exp y * exp (- y) = 1)
      by (rewrite <- exp_plus, Rplus_opp_r; apply exp_0).
    assert (He : exp y * (1 - y) <= 1).
    { rewrite <- Hinv. apply Rmult_le_compat_l; [left; apply exp_pos | lra]. }
    assert (Hy2 : 0 <= y ^ 2) by nra.
    pose proof (exp_pos y).
    nra.
Qed.

(** The integrand of the auxiliary integral and its derivative in [x]. *)
Definition aux (x t : R) : R := gauss x * gauss (x * t) / (1 + t ^ 2).
Definition aux' (x t : R) : R := - gauss x * (x * gauss (x * t)).

Lemma gauss_lin_continuity (x : R) : continuity (fun t => gauss (x * t)).
Proof.
  apply (continuity_comp (fun t => x * t) gauss).
  - apply (continuity_scal id x), derivable_continuous, derivable_id.
  - apply gauss_continuity.
Qed.

Lemma aux_continuity (x : R) : continuity (aux x).
Proof.
  unfold aux.
  apply (continuity_div (fun t => gauss x * gauss (x * t))
                        (fun t => 1 + t ^ 2)).
  - apply (continuity_scal (fun t => gauss (x * t)) (gauss x)),
      gauss_lin_continuity.
  - apply derivable_continuous. reg.
  - intros t. nra.
Qed.

Lemma aux'_continuity (x : R) : continuity (aux' x).
Proof.
  unfold aux'.
  apply (continuity_scal (fun t => x * gauss (x * t)) (- gauss x)).
  apply (continuity_scal (fun t => gauss (x * t)) x), gauss_lin_continuity.
Qed.

Definition aux_int (x : R) : R := Rint (aux_continuity x) 0 1.

Lemma gauss_mult (x k t : R) :
  gauss (x + k) * gauss ((x + k) * t)
  = gauss x * gauss (x * t) * exp (- (1 + t ^ 2) * (x * k + k ^ 2 / 2)).
Proof.
  unfold gauss. rewrite <- !exp_plus. apply (f_equal exp). field.
Qed.

Lemma aux_increment (x k t : R) :
  0 <= t <= 1 -> Rabs k <= 1 -> 4 * (Rabs x + 1) * Rabs k <= 1 ->
  Rabs (aux (x + k) t - aux x t - k * aux' x t)
  <= (8 * (Rabs x + 1) ^ 2 + 1) * k ^ 2.
Proof.
  intros Ht Hk1 Hk2.
  set (a := 1 + t ^ 2).
  set (y := - a * (x * k + k ^ 2 / 2)).
  set (E := gauss x * gauss (x * t)).
  assert (Ha : 1 <= a <= 2) by (unfold a; nra).
  assert (HE : 0 < E <= 1).
  { unfold E. pose proof (gauss_pos x). pose proof (gauss_pos (x * t)).
    pose proof (gauss_le_1 x). pose proof (gauss_le_1 (x * t)). nra. }
  assert (Heq : aux (x + k) t - aux x t - k * aux' x t
                = E / a * (exp y - 1 - y) - E * (k ^ 2 / 2)).
  { unfold aux, aux'. rewrite gauss_mult. unfold y, E, a. field. nra. }
  rewrite Heq.
  pose proof (Rabs_pos x) as Hx0. pose proof (Rabs_pos k) as Hk0.
  assert (Hxk : Rabs (x * k) = Rabs x * Rabs k) by apply Rabs_mult.
  assert (Hkk : k ^ 2 = Rabs k * Rabs k).
  { rewrite <- Rabs_mult. simpl. rewrite Rmult_1_r.
    symmetry. apply Rabs_pos_eq. nra. }
  assert (Hy : Rabs y <= 2 * (Rabs x + 1) * Rabs k).
  { unfold y. rewrite Rabs_mult, Rabs_Ropp, (Rabs_pos_eq a) by lra.
    apply Rle_trans with (2 * (Rabs x * Rabs k + Rabs k * Rabs k / 2)).
    - apply Rmult_le_compat; try lra; [apply Rabs_pos |].
      eapply Rle_trans; [apply Rabs_triang |].
      rewrite Hxk, Hkk. rewrite (Rabs_pos_eq (Rabs k * Rabs k / 2)) by nra.
      lra.
    - nra. }
  assert (Hy' : y <= 1 / 2).
  { pose proof (Rle_abs y). lra. }
  destruct (exp_taylor2 Hy') as [Ht1 Ht2].
  assert (Hy2 : y ^ 2 <= 4 * (Rabs x + 1) ^ 2 * k ^ 2).
  { replace (y ^ 2) with (Rabs y * Rabs y)
      by (rewrite <- Rabs_mult; simpl; rewrite Rmult_1_r;
          apply Rabs_pos_eq; nra).
    rewrite Hkk. pose proof (Rabs_pos y). nra. }
  assert (Hq : 0 <= E / a <= 1).
  { split.
    - apply Rmult_le_pos; [lra | left; apply Rinv_0_lt_compat; lra].
    - apply Rle_trans with (E / 1); [| lra].
      apply Rmult_le_compat_l; [lra |]. apply Rinv_le_contravar; lra. }
  assert (Hk2' : 0 <= k ^ 2) by nra.
  apply Rabs_le. split; nra.
Qed.

Lemma Rint_lin (f g : R -> R) (Hf : continuity f) (Hg : continuity g)
    (c : R) (Hfg : continuity (fun t => f t + c * g t)) (a b : R) :
  Rint Hfg a b = Rint Hf a b + c * Rint Hg a b.
Proof.
  assert (Hd : forall x,
    derivable_pt_lim (fun y => Rint Hf a y + c * Rint Hg a y) x
                     (f x + c * g x)).
  { intros x.
    apply (derivable_pt_lim_plus (fun y => Rint Hf a y)
             (fun y => c * Rint Hg a y)).
    - apply Rint_derivable.
    - apply derivable_pt_lim_scal, Rint_derivable. }
  rewrite (@Rint_primitive _ Hfg _ a b Hd), !Rint_refl. ring.
Qed.

Lemma Rabs_le_inv (a b : R) : Rabs a <= b -> - b <= a <= b.
Proof.
  intros Hab. pose proof (Rle_abs a). pose proof (Rle_abs (- a)) as Hn.
  rewrite Rabs_Ropp in Hn. lra.
Qed.

Lemma Rint_abs_le (f : R -> R) (Hf : continuity f) (a b m : R) :
  a <= b -> (forall t, a <= t <= b -> Rabs (f t) <= m) ->
  Rabs (Rint Hf a b) <= m * (b - a).
Proof.
  intros Hab Hm. apply Rabs_le. split.
  - replace (- (m * (b - a))) with (- m * (b - a)) by ring.
    apply Rint_ge_const; [exact Hab |].
    intros t Ht. specialize (Hm t Ht). apply Rabs_le_inv in Hm. lra.
  - apply Rint_le_const; [exact Hab |].
    intros t Ht. specialize (Hm t Ht). apply Rabs_le_inv in Hm. lra.
Qed.

Lemma aux_int_increment (x k : R) :
  Rabs k <= 1 -> 4 * (Rabs x + 1) * Rabs k <= 1 ->
  Rabs (aux_int (x + k) - aux_int x - k * Rint (aux'_continuity x) 0 1)
  <= (8 * (Rabs x + 1) ^ 2 + 1) * k ^ 2.
Proof.
  intros Hk1 Hk2.
  assert (H1 : continuity (fun t => aux (x + k) t + -1 * aux x t)).
  { apply (continuity_plus (aux (x + k)) (fun t => -1 * aux x t)).
    - apply aux_continuity.
    - apply (continuity_scal (aux x) (-1)), aux_continuity. }
  assert (H2 : continuity
            (fun t => (aux (x + k) t + -1 * aux x t) + - k * aux' x t)).
  { apply (continuity_plus (fun t => aux (x + k) t + -1 * aux x t)
                           (fun t => - k * aux' x t)).
    - exact H1.
    - apply (continuity_scal (aux' x) (- k)), aux'_continuity. }
  replace (aux_int (x + k) - aux_int x - k * Rint (aux'_continuity x) 0 1)
    with (Rint H2 0 1).
  - replace ((8 * (Rabs x + 1) ^ 2 + 1) * k ^ 2)
      with ((8 * (Rabs x + 1) ^ 2 + 1) * k ^ 2 * (1 - 0)) by ring.
    apply Rint_abs_le; [lra |].
    intros t Ht.
    replace (aux (x + k) t + -1 * aux x t + - k * aux' x t)
      with (aux (x + k) t - aux x t - k * aux' x t) by ring.
    apply aux_increment; assumption.
  - rewrite (Rint_lin H1 (aux'_continuity x)).
    rewrite (Rint_lin (aux_continuity (x + k)) (aux_continuity x)).
    unfold aux_int. ring.
Qed.

Lemma aux_int_derivable (x : R) :
  derivable_pt_lim aux_int x (Rint (aux'_continuity x) 0 1).
Proof.
  intros eps Heps.
  set (M := 8 * (Rabs x + 1) ^ 2 + 1).
  pose proof (Rabs_pos x) as Hx0.
  assert (HM : 0 < M) by (unfold M; nra).
  assert (Hq : 0 < / (4 * (Rabs x + 1))) by (apply Rinv_0_lt_compat; lra).
  assert (Hd : 0 < Rmin (/ (4 * (Rabs x + 1))) (eps / M)).
  { apply Rmin_pos; [exact Hq | apply Rdiv_lt_0_compat; assumption]. }
  exists (mkposreal _ Hd). simpl. intros k Hk0 Hk.
  assert (Hk1 : Rabs k < / (4 * (Rabs x + 1)))
    by (eapply Rlt_le_trans; [exact Hk | apply Rmin_l]).
  assert (Hk2 : Rabs k < eps / M)
    by (eapply Rlt_le_trans; [exact Hk | apply Rmin_r]).
  assert (Hk3 : 4 * (Rabs x + 1) * Rabs k <= 1).
  { apply Rmult_lt_compat_l with (r := 4 * (Rabs x + 1)) in Hk1; [| lra].
    rewrite Rinv_r in Hk1 by lra. lra. }
  assert (Hk4 : Rabs k <= 1) by (pose proof (Rabs_pos k); nra).
  pose proof (@aux_int_increment x k Hk4 Hk3) as Hinc. fold M in Hinc.
  assert (Hkpos : 0 < Rabs k) by (apply Rabs_pos_lt; exact Hk0).
  replace ((aux_int (x + k) - aux_int x) / k - Rint (aux'_continuity x) 0 1)
    with ((aux_int (x + k) - aux_int x - k * Rint (aux'_continuity x) 0 1) / k)
    by (field; exact Hk0).
  unfold Rdiv at 1. rewrite Rabs_mult, Rabs_inv.
  apply Rmult_lt_reg_r with (Rabs k); [exact Hkpos |].
  rewrite Rmult_assoc, Rinv_l, Rmult_1_r by lra.
  eapply Rle_lt_trans; [exact Hinc |].
  assert (Hkk : k ^ 2 = Rabs k * Rabs k).
  { rewrite <- Rabs_mult. simpl. rewrite Rmult_1_r.
    symmetry. apply Rabs_pos_eq. nra. }
  rewrite Hkk.
  apply Rmult_lt_compat_r with (r := M) in Hk2; [| exact HM].
  unfold Rdiv in Hk2. rewrite Rmult_assoc, Rinv_l, Rmult_1_r in Hk2 by lra.
  nra.
Qed.

(** Substitution [u = x * t]. *)
Lemma gauss_int_scale (x : R) (Hx : continuity (fun t => x * gauss (x * t))) :
  Rint Hx 0 1 = gauss_int x.
Proof.
  assert (Hd : forall t,
    derivable_pt_lim (fun t => gauss_int (x * t)) t (x * gauss (x * t))).
  { intros t. rewrite Rmult_comm.
    apply (derivable_pt_lim_comp (fun t => x * t) gauss_int).
    - pose proof (derivable_pt_lim_scal id x t 1 (derivable_pt_lim_id t))
        as Hid.
      rewrite Rmult_1_r in Hid. exact Hid.
    - apply gauss_int_derivable. }
  rewrite (@Rint_primitive _ Hx _ 0 1 Hd).
  rewrite Rmult_1_r, Rmult_0_r, gauss_int_0. ring.
Qed.

Lemma aux'_int (x : R) :
  Rint (aux'_continuity x) 0 1 = - gauss x * gauss_int x.
Proof.
  assert (Hx : continuity (fun t => x * gauss (x * t))).
  { apply (continuity_scal (fun t => gauss (x * t)) x), gauss_lin_continuity. }
  assert (Hs : continuity (fun t => - gauss x * (x * gauss (x * t)))).
  { apply (continuity_scal (fun t => x * gauss (x * t)) (- gauss x)), Hx. }
  rewrite (Rint_ext (aux'_continuity x) Hs 0 1 (fun t => eq_refl)).
  rewrite (Rint_scal Hx), gauss_int_scale. reflexivity.
Qed.

Lemma aux_int_0 : aux_int 0 = PI / 4.
Proof.
  unfold aux_int.
  assert (Hd : forall t, derivable_pt_lim atan t (aux 0 t)).
  { intros t. replace (aux 0 t) with (/ (1 + t ^ 2)).
    - apply derivable_pt_lim_atan.
    - unfold aux, gauss.
      replace (- 0 ^ 2 / 2) with 0 by field.
      replace (- (0 * t) ^ 2 / 2) with 0 by field.
      rewrite exp_0. field. nra. }
  rewrite (@Rint_primitive _ (aux_continuity 0) _ 0 1 Hd).
  rewrite atan_1, atan_0. ring.
Qed.

(** The identity behind the Gaussian integral. *)
Lemma gauss_int_sqr (x : R) : gauss_int x ^ 2 = PI / 2 - 2 * aux_int x.
Proof.
  set (F := fun y => gauss_int y * gauss_int y + 2 * aux_int y).
  assert (HF : forall y, derivable_pt_lim F y 0).
  { intros y.
    replace 0 with ((gauss y * gauss_int y + gauss_int y * gauss y)
                    + 2 * (- gauss y * gauss_int y)) by ring.
    apply (derivable_pt_lim_plus (fun y => gauss_int y * gauss_int y)
             (fun y => 2 * aux_int y)).
    - apply (derivable_pt_lim_mult gauss_int gauss_int);
        apply gauss_int_derivable.
    - apply derivable_pt_lim_scal. rewrite <- aux'_int.
      apply aux_int_derivable. }
  pose proof (zero_derivative_constant HF x 0) as Hx. unfold F in Hx.
  rewrite gauss_int_0, aux_int_0 in Hx. lra.
Qed.

Lemma aux_int_bounds (x : R) : 0 < aux_int x <= gauss x.
Proof.
  unfold aux_int. split.
  - apply Rlt_le_trans with (gauss x * gauss x / 2 * (1 - 0)).
    + pose proof (gauss_pos x). nra.
    + apply Rint_ge_const; [lra |].
      intros t Ht. unfold aux.
      assert (Hg : gauss x <= gauss (x * t)).
      { unfold gauss. destruct (Rle_lt_or_eq_dec _ _ (proj2 Ht)) as [Hlt | ->].
        - destruct (Req_dec x 0) as [-> | Hx0].
          + right. apply (f_equal exp). field.
          + left. apply exp_increasing. 
            assert (0 < x ^ 2) by nra.
            assert (t ^ 2 < 1) by nra.
            assert ((x * t) ^ 2 < x ^ 2) by nra. lra.
        - right. apply (f_equal exp). field. }
      pose proof (gauss_pos x).
      assert (Ha : 1 <= 1 + t ^ 2 <= 2) by nra.
      apply Rle_trans with (gauss x * gauss x / (1 + t ^ 2)).
      * unfold Rdiv. apply Rmult_le_compat_l; [nra |].
        apply Rinv_le_contravar; lra.
      * unfold Rdiv. apply Rmult_le_compat_r;
          [left; apply Rinv_0_lt_compat; lra | nra].
  - replace (gauss x) with (gauss x * (1 - 0)) by ring.
    apply Rint_le_const; [lra |].
    intros t Ht. unfold aux.
    pose proof (gauss_pos x). pose proof (gauss_pos (x * t)).
    pose proof (gauss_le_1 (x * t)).
    assert (Ha : 1 <= 1 + t ^ 2) by nra.
    apply Rle_trans with (gauss x * gauss (x * t) / 1); [| nra].
    unfold Rdiv. apply Rmult_le_compat_l; [nra |].
    apply Rinv_le_contravar; lra.
Qed.

(** ** Values of the distribution function *)

Lemma norm_pdf_R_pos (x : R) : 0 < norm_pdf_R x.
Proof.
  rewrite norm_pdf_R_gauss.
  apply Rmult_lt_0_compat; [apply Rinv_0_lt_compat, sqrt_2PI_pos | apply gauss_pos].
Qed.

Lemma sqrt_2PI_sqr : sqrt (2 * PI) * sqrt (2 * PI) = 2 * PI.
Proof. apply sqrt_sqrt. pose proof PI_RGT_0. lra. Qed.

(** The distribution function takes its values strictly between 0 and 1. *)
Lemma norm_cdf_R_bounds (x : R) : 0 < norm_cdf_R x < 1.
Proof.
  rewrite norm_cdf_R_gauss.
  pose proof (gauss_int_sqr x) as Hsq.
  pose proof (aux_int_bounds x) as [Ha _].
  pose proof sqrt_2PI_pos as Hc. pose proof sqrt_2PI_sqr as Hcc.
  set (c := sqrt (2 * PI)) in *. set (J := gauss_int x) in *.
  assert (Hlt : J ^ 2 < c * c / 4) by lra.
  assert (Hb : - (c / 2) < J < c / 2) by (split; nra).
  assert (Hq : - (1 / 2) < J / c < 1 / 2).
  { split.
    - apply Rmult_lt_reg_r with c; [exact Hc |].
      unfold Rdiv. rewrite Rmult_assoc, Rinv_l by lra. lra.
    - apply Rmult_lt_reg_r with c; [exact Hc |].
      unfold Rdiv. rewrite Rmult_assoc, Rinv_l by lra. lra. }
  lra.
Qed.

(** Unfolding of the interface at the real instance. *)
Ltac real_ops :=
  cbn [lit add sub mul div neg power np_log np_sqrt np_exp norm_cdf norm_pdf
       R_numeric Delta Gamma Vega Theta Rho].

Lemma lit_1 : Q2R 1 = 1.
Proof. unfold Q2R; simpl; field. Qed.

Lemma lit_half : Q2R 0.5 = 1 / 2.
Proof. unfold Q2R; simpl; field. Qed.

(** ** Tails of the law *)

Lemma gauss_int_nonneg (x : R) : 0 <= x -> 0 <= gauss_int x.
Proof.
  intros Hx. unfold gauss_int.
  replace 0 with (0 * (x - 0)) at 1 by ring.
  apply Rint_ge_const; [exact Hx |].
  intros t _. left. apply gauss_pos.
Qed.

Lemma gauss_int_le (x : R) : 0 <= x -> gauss_int x <= x.
Proof.
  intros Hx. unfold gauss_int.
  replace x with (1 * (x - 0)) at 2 by ring.
  apply Rint_le_const; [exact Hx |].
  intros t _. apply gauss_le_1.
Qed.

Lemma gauss_tail (x : R) : 0 < x -> gauss x <= 2 / x ^ 2.
Proof.
  intros Hx. unfold gauss.
  assert (Hx2 : 0 < x ^ 2) by nra.
  pose proof (exp_ineq1_le (x ^ 2 / 2)) as He.
  assert (Hinv : exp (- x ^ 2 / 2) * exp (x ^ 2 / 2) = 1).
  { rewrite <- exp_plus. replace (- x ^ 2 / 2 + x ^ 2 / 2) with 0 by field.
    apply exp_0. }
  pose proof (exp_pos (- x ^ 2 / 2)) as Hp.
  apply Rmult_le_reg_r with (x ^ 2); [exact Hx2 |].
  unfold Rdiv at 2. rewrite Rmult_assoc, Rinv_l by lra.
  nra.
Qed.

(** The upper tail of the law. *)
Lemma norm_cdf_R_tail (x : R) : 0 < x -> 1 - norm_cdf_R x <= gauss x.
Proof.
  intros Hx. rewrite norm_cdf_R_gauss.
  pose proof (gauss_int_sqr x) as Hsq.
  pose proof (aux_int_bounds x) as [Ha1 Ha2].
  pose proof (gauss_int_nonneg (Rlt_le _ _ Hx)) as HJ.
  pose proof sqrt_2PI_pos as Hc. pose proof sqrt_2PI_sqr as Hcc.
  pose proof PI2_3_2 as Hpi.
  set (c := sqrt (2 * PI)) in *. set (J := gauss_int x) in *.
  set (A := aux_int x) in *. set (g := gauss x) in *.
  assert (Hdiff : (c / 2 - J) * (c / 2 + J) = 2 * A) by nra.
  assert (Hlt : J < c / 2) by nra.
  (* c/2 - J <= 4 A / c *)
  assert (Hb : (c / 2 - J) * c <= 4 * A) by nra.
  assert (Hgoal : (1 / 2 - J / c) * (c * c) <= g * (c * c)).
  { replace ((1 / 2 - J / c) * (c * c)) with ((c / 2 - J) * c)
      by (field; lra).
    rewrite Hcc. nra. }
  apply Rmult_le_reg_r with (c * c); [nra |].
  replace (1 - (1 / 2 + J / c)) with (1 / 2 - J / c) by (field; lra).
  exact Hgoal.
Qed.

Lemma norm_cdf_R_far (L v d : R) :
  0 < v -> v ^ 2 <= L -> L / v - v / 2 <= d ->
  1 - norm_cdf_R d <= 8 * v ^ 2 / L ^ 2.
Proof.
  intros Hv HL Hd.
  assert (HL0 : 0 < L) by nra.
  assert (Hq : L / (2 * v) <= L / v - v / 2).
  { apply Rmult_le_reg_r with (2 * v); [lra |].
    replace (L / (2 * v) * (2 * v)) with L by (field; lra).
    replace ((L / v - v / 2) * (2 * v)) with (2 * L - v ^ 2) by (field; lra).
    lra. }
  assert (Hq0 : 0 < L / (2 * v)) by (apply Rdiv_lt_0_compat; lra).
  assert (Hd0 : 0 < d) by lra.
  eapply Rle_trans; [apply norm_cdf_R_tail; exact Hd0 |].
  eapply Rle_trans; [apply gauss_tail; exact Hd0 |].
  assert (Hsq : (L / (2 * v)) ^ 2 <= d ^ 2) by nra.
  assert (Hsq' : (L / (2 * v)) ^ 2 = L ^ 2 / (4 * v ^ 2)) by (field; lra).
  assert (HL2 : 0 < L ^ 2) by nra.
  assert (Hv2 : 0 < v ^ 2) by nra.
  assert (Hd2 : 0 < d ^ 2) by nra.
  apply Rmult_le_reg_r with (d ^ 2 * L ^ 2); [nra |].
  replace (2 / d ^ 2 * (d ^ 2 * L ^ 2)) with (2 * L ^ 2) by (field; lra).
  replace (8 * v ^ 2 / L ^ 2 * (d ^ 2 * L ^ 2)) with (8 * v ^ 2 * d ^ 2)
    by (field; lra).
  rewrite Hsq' in Hsq.
  assert (L ^ 2 <= 4 * v ^ 2 * d ^ 2).
  { apply Rmult_le_compat_r with (r := 4 * v ^ 2) in Hsq; [| lra].
    replace (L ^ 2 / (4 * v ^ 2) * (4 * v ^ 2)) with (L ^ 2) in Hsq
      by (field; lra).
    lra. }
  lra.
Qed.

Lemma norm_cdf_R_lower_tail (a : R) : a < 0 -> norm_cdf_R a <= 2 / a ^ 2.
Proof.
  intros Ha.
  assert (Hn : 0 < - a) by lra.
  pose proof (norm_cdf_R_tail Hn) as Ht. pose proof (gauss_tail Hn) as Hg.
  rewrite norm_cdf_R_opp in Ht.
  replace (a ^ 2) with ((- a) ^ 2) by ring. lra.
Qed.

Lemma two_over_sqr_small (eps x : R) :
  0 < eps -> 1 + 2 / eps < x -> 2 / x ^ 2 < eps.
Proof.
  intros Heps Hx.
  assert (Hq : 0 < 2 / eps) by (apply Rdiv_lt_0_compat; lra).
  assert (Hx1 : 1 < x) by lra.
  assert (Hx2 : x < x ^ 2) by nra.
  assert (He : 2 < eps * x ^ 2).
  { assert (2 = eps * (2 / eps)) by (field; lra). nra. }
  apply Rmult_lt_reg_r with (x ^ 2); [nra |].
  unfold Rdiv. rewrite Rmult_assoc, Rinv_l, Rmult_1_r by nra. exact He.
Qed.

(** [norm_cdf_R x] is the integral of the density over everything below
    [x]: the integrals from [a] to [x] tend to it as [a] tends to minus
    infinity. *)
Lemma norm_cdf_R_improper (x eps : R) :
  0 < eps ->
  exists M : R, forall a : R, a < M ->
    Rabs (Rint norm_pdf_R_continuity a x - norm_cdf_R x) < eps.
Proof.
  intros Heps. exists (- (1 + 2 / eps)). intros a Ha.
  assert (Hq : 0 < 2 / eps) by (apply Rdiv_lt_0_compat; lra).
  assert (Hdiff : Rint norm_pdf_R_continuity a x - norm_cdf_R x
                  = - norm_cdf_R a).
  { unfold norm_cdf_R.
    rewrite <- (Rint_chasles norm_pdf_R_continuity a 0 x).
    rewrite (Rint_swap norm_pdf_R_continuity a 0). ring. }
  rewrite Hdiff, Rabs_Ropp.
  pose proof (norm_cdf_R_bounds a) as [H0 _].
  rewrite Rabs_pos_eq by lra.
  eapply Rle_lt_trans; [apply norm_cdf_R_lower_tail; lra |].
  replace (a ^ 2) with ((- a) ^ 2) by ring.
  apply two_over_sqr_small; lra.
Qed.

(** The total mass is 1. *)
Lemma norm_cdf_R_total (eps : R) :
  0 < eps ->
  exists M : R, forall x : R, M < x -> 1 - eps < norm_cdf_R x < 1.
Proof.
  intros Heps. exists (1 + 2 / eps). intros x Hx.
  assert (Hq : 0 < 2 / eps) by (apply Rdiv_lt_0_compat; lra).
  assert (Hx0 : 0 < x) by lra.
  pose proof (norm_cdf_R_tail Hx0) as Ht. pose proof (gauss_tail Hx0) as Hg.
  pose proof (two_over_sqr_small Heps Hx).
  pose proof (norm_cdf_R_bounds x). lra.
Qed.

(** ** Monotonicity in the spot price *)

Lemma call_minus_put (S K T r sigma : R) :
  black_scholes_call S K T r sigma - black_scholes_put S K T r sigma
  = S - K * exp (- r * T).
Proof.
  unfold black_scholes_call, black_scholes_put. real_ops.
  rewrite !norm_cdf_R_opp. ring.
Qed.

Lemma ln_quot (x y : R) : 0 < x -> 0 < y -> ln (x / y) = ln x - ln y.
Proof.
  intros Hx Hy. unfold Rdiv.
  rewrite ln_mult by (try apply Rinv_0_lt_compat; assumption).
  rewrite ln_Rinv by assumption. ring.
Qed.

(** A function with a positive derivative is strictly increasing. *)
Lemma positive_derivative_increasing (F F' : R -> R) :
  (forall x, derivable_pt_lim F x (F' x)) -> (forall x, 0 < F' x) ->
  forall x y, x < y -> F x < F y.
Proof.
  intros HF Hpos x y Hxy.
  destruct (MVT_cor2 F F' x y Hxy (fun c _ => HF c)) as (c & Hc & _).
  pose proof (Hpos c). nra.
Qed.

(** ** The price as a function of the logarithm of the spot *)

Section LogSpot.

Variables K T r sigma : R.
Hypothesis HK : 0 < K.
Hypothesis HT : 0 < T.
Hypothesis Hsig : 0 < sigma.

Let v : R := sigma * sqrt T.

Definition d1_log (u : R) : R :=
  (u - ln K + (r + 1 / 2 * sigma ^ 2) * T) / v.

Definition call_log (u : R) : R :=
  exp u * norm_cdf_R (d1_log u) - K * exp (- r * T) * norm_cdf_R (d1_log u - v).

Lemma v_pos : 0 < v.
Proof. apply Rmult_lt_0_compat; [exact Hsig | apply sqrt_lt_R0, HT]. Qed.

Lemma v_sqr : v * v = sigma ^ 2 * T.
Proof.
  unfold v. replace (sigma * sqrt T * (sigma * sqrt T))
    with (sigma ^ 2 * (sqrt T * sqrt T)) by ring.
  rewrite sqrt_sqrt by lra. reflexivity.
Qed.

Lemma call_log_spot (S : R) :
  0 < S -> black_scholes_call S K T r sigma = call_log (ln S).
Proof.
  intros HS. unfold black_scholes_call, call_log, d1_log. real_ops.
  rewrite lit_half, (ln_quot HS HK), (exp_ln S HS). reflexivity.
Qed.

Lemma d1_log_derivable (u : R) : derivable_pt_lim d1_log u (/ v).
Proof.
  replace (/ v) with ((1 - 0 + 0) * / v) by ring.
  unfold d1_log, Rdiv.
  apply (derivable_pt_lim_scal_right
           (fun u => u - ln K + (r + 1 * / 2 * sigma ^ 2) * T)).
  apply (derivable_pt_lim_plus (fun u => u - ln K)
           (fun _ => (r + 1 * / 2 * sigma ^ 2) * T)).
  - apply (derivable_pt_lim_minus id (fun _ => ln K)).
    + apply derivable_pt_lim_id.
    + apply derivable_pt_lim_const.
  - apply derivable_pt_lim_const.
Qed.

(** [S * pdf(d1) = K * exp(-r T) * pdf(d2)], in the logarithm of the spot. *)
Lemma pdf_d1_d2 (u : R) :
  K * exp (- r * T) * norm_pdf_R (d1_log u - v)
  = exp u * norm_pdf_R (d1_log u).
Proof.
  pose proof v_pos as Hv. pose proof v_sqr as Hvv.
  rewrite !norm_pdf_R_gauss. unfold gauss.
  rewrite <- (exp_ln K HK) at 1.
  replace (exp (ln K) * exp (- r * T) *
           (/ sqrt (2 * PI) * exp (- (d1_log u - v) ^ 2 / 2)))
    with (/ sqrt (2 * PI) *
          (exp (ln K) * exp (- r * T) * exp (- (d1_log u - v) ^ 2 / 2)))
    by ring.
  replace (exp u * (/ sqrt (2 * PI) * exp (- d1_log u ^ 2 / 2)))
    with (/ sqrt (2 * PI) * (exp u * exp (- d1_log u ^ 2 / 2))) by ring.
  rewrite <- !exp_plus. do 2 f_equal.
  assert (Hd : d1_log u * v = u - ln K + (r + 1 / 2 * sigma ^ 2) * T).
  { unfold d1_log. field. lra. }
  replace (- (d1_log u - v) ^ 2 / 2)
    with (- d1_log u ^ 2 / 2 + d1_log u * v - v * v / 2) by field.
  rewrite Hd, Hvv. field.
Qed.

Lemma call_log_derivable (u : R) :
  derivable_pt_lim call_log u (exp u * norm_cdf_R (d1_log u)).
Proof.
  pose proof v_pos as Hv.
  replace (exp u * norm_cdf_R (d1_log u))
    with ((exp u * norm_cdf_R (d1_log u)
           + exp u * (norm_pdf_R (d1_log u) * / v))
          - K * exp (- r * T) * (norm_pdf_R (d1_log u - v) * (/ v - 0))).
  2:{ pose proof (pdf_d1_d2 u) as Hid.
      replace (K * exp (- r * T) * (norm_pdf_R (d1_log u - v) * (/ v - 0)))
        with (K * exp (- r * T) * norm_pdf_R (d1_log u - v) * / v) by ring.
      rewrite Hid. ring. }
  unfold call_log.
  apply (derivable_pt_lim_minus
           (fun u => exp u * norm_cdf_R (d1_log u))
           (fun u => K * exp (- r * T) * norm_cdf_R (d1_log u - v))).
  - apply (derivable_pt_lim_mult exp (fun u => norm_cdf_R (d1_log u))).
    + apply derivable_pt_lim_exp.
    + apply (derivable_pt_lim_comp d1_log norm_cdf_R).
      * apply d1_log_derivable.
      * apply norm_cdf_R_derivable.
  - apply (derivable_pt_lim_scal (fun u => norm_cdf_R (d1_log u - v))).
    apply (derivable_pt_lim_comp (fun u => d1_log u - v) norm_cdf_R).
    + apply (derivable_pt_lim_minus d1_log (fun _ => v)).
      * apply d1_log_derivable.
      * apply derivable_pt_lim_const.
    + apply norm_cdf_R_derivable.
Qed.

Lemma call_log_increasing (u1 u2 : R) : u1 < u2 -> call_log u1 < call_log u2.
Proof.
  apply positive_derivative_increasing
    with (F' := fun u => exp u * norm_cdf_R (d1_log u)).
  - apply call_log_derivable.
  - intros u. apply Rmult_lt_0_compat;
      [apply exp_pos | apply norm_cdf_R_bounds].
Qed.

(** The same for [exp u - call_log u], whose derivative is
    [exp u * (1 - cdf (d1))]. *)
Lemma spot_minus_call_log_increasing (u1 u2 : R) :
  u1 < u2 -> exp u1 - call_log u1 < exp u2 - call_log u2.
Proof.
  apply positive_derivative_increasing
    with (F := fun u => exp u - call_log u)
         (F' := fun u => exp u * (1 - norm_cdf_R (d1_log u))).
  - intros u.
    replace (exp u * (1 - norm_cdf_R (d1_log u)))
      with (exp u - exp u * norm_cdf_R (d1_log u)) by ring.
    apply (derivable_pt_lim_minus exp call_log).
    + apply derivable_pt_lim_exp.
    + apply call_log_derivable.
  - intros u. pose proof (norm_cdf_R_bounds (d1_log u)).
    apply Rmult_lt_0_compat; [apply exp_pos | lra].
Qed.

End LogSpot.

(** ** The small-volatility regime *)

Section SmallVolatility.

Variables S P L v : R.
Hypothesis HS : 0 < S.
Hypothesis HP : 0 < P.
Hypothesis Hv : 0 < v.

Lemma call_near_in_the_money :
  v ^ 2 <= L ->
  Rabs (S * norm_cdf_R (L / v + v / 2) - P * norm_cdf_R (L / v - v / 2)
        - (S - P))
  <= (S + P) * (8 * v ^ 2 / L ^ 2).
Proof.
  intros HL.
  assert (H1 : 1 - norm_cdf_R (L / v + v / 2) <= 8 * v ^ 2 / L ^ 2)
    by (apply norm_cdf_R_far; lra).
  assert (H2 : 1 - norm_cdf_R (L / v - v / 2) <= 8 * v ^ 2 / L ^ 2)
    by (apply norm_cdf_R_far; lra).
  pose proof (norm_cdf_R_bounds (L / v + v / 2)) as B1.
  pose proof (norm_cdf_R_bounds (L / v - v / 2)) as B2.
  set (b := 8 * v ^ 2 / L ^ 2) in *.
  set (p1 := norm_cdf_R (L / v + v / 2)) in *.
  set (p2 := norm_cdf_R (L / v - v / 2)) in *.
  apply Rabs_le. split; nra.
Qed.

Lemma call_near_out_of_the_money :
  v ^ 2 <= - L ->
  Rabs (S * norm_cdf_R (L / v + v / 2) - P * norm_cdf_R (L / v - v / 2))
  <= (S + P) * (8 * v ^ 2 / L ^ 2).
Proof.
  intros HL.
  assert (HLL : L ^ 2 = (- L) ^ 2) by ring.
  assert (H1 : 1 - norm_cdf_R (- (L / v + v / 2)) <= 8 * v ^ 2 / L ^ 2).
  { rewrite HLL. apply norm_cdf_R_far; lra. }
  assert (H2 : 1 - norm_cdf_R (- (L / v - v / 2)) <= 8 * v ^ 2 / L ^ 2).
  { rewrite HLL. apply norm_cdf_R_far; lra. }
  rewrite !norm_cdf_R_opp in H1, H2.
  pose proof (norm_cdf_R_bounds (L / v + v / 2)) as B1.
  pose proof (norm_cdf_R_bounds (L / v - v / 2)) as B2.
  set (b := 8 * v ^ 2 / L ^ 2) in *.
  set (p1 := norm_cdf_R (L / v + v / 2)) in *.
  set (p2 := norm_cdf_R (L / v - v / 2)) in *.
  apply Rabs_le. split; nra.
Qed.

Lemma call_near_at_the_money :
  Rabs (S * norm_cdf_R (v / 2) - S * norm_cdf_R (- (v / 2))) <= S * v.
Proof.
  rewrite norm_cdf_R_opp, norm_cdf_R_gauss.
  assert (Hv2 : 0 <= v / 2) by lra.
  pose proof (gauss_int_nonneg Hv2) as J0.
  pose proof (gauss_int_le Hv2) as J1.
  pose proof sqrt_2PI_pos as Hc. pose proof sqrt_2PI_sqr as Hcc.
  pose proof PI2_3_2 as Hpi.
  set (c := sqrt (2 * PI)) in *. set (J := gauss_int (v / 2)) in *.
  assert (Hc1 : 1 <= c) by nra.
  assert (Hq : 0 <= J / c <= v / 2).
  { split.
    - apply Rmult_le_pos; [exact J0 | left; apply Rinv_0_lt_compat; lra].
    - apply Rmult_le_reg_r with c; [lra |].
      unfold Rdiv at 1. rewrite Rmult_assoc, Rinv_l by lra. nra. }
  apply Rabs_le. split; nra.
Qed.

End SmallVolatility.

(** The call price in terms of the log-moneyness [L = ln (S / K) + r T]
    and the total volatility [v = sigma * sqrt T]. *)
Lemma black_scholes_call_moneyness (S K T r sigma : R) :
  0 < T -> 0 < sigma ->
  let L := ln (S / K) + r * T in
  let v := sigma * sqrt T in
  black_scholes_call S K T r sigma
  = S * norm_cdf_R (L / v + v / 2)
    - K * exp (- r * T) * norm_cdf_R (L / v - v / 2).
Proof.
  intros HT Hsig L v.
  assert (Hs : 0 < sqrt T) by (apply sqrt_lt_R0; exact HT).
  assert (Hss : sqrt T * sqrt T = T) by (apply sqrt_sqrt; lra).
  assert (Hv : 0 < v) by (unfold v; nra).
  assert (Hd1 : (ln (S / K) + (r + 1 / 2 * sigma ^ 2) * T) / v
                = L / v + v / 2).
  { replace (L / v + v / 2)
      with ((L + 1 / 2 * sigma ^ 2 * (sqrt T * sqrt T)) / v)
      by (unfold v; field; split; lra).
    rewrite Hss. unfold L. f_equal. ring. }
  unfold black_scholes_call. real_ops. rewrite lit_half.
  fold v. rewrite Hd1.
  replace (L / v + v / 2 - v) with (L / v - v / 2) by (field; lra).
  reflexivity.
Qed.

(** ** Numerical enclosures *)

Lemma PI_bounds : 3.1415 < PI < 3.1416.
Proof.
  pose proof (PI_2_3_7_ineq 2) as [Hlo Hhi].
  unfold sum_f_R0, tg_alt, PI_2_3_7_tg, Ratan_seq in Hlo, Hhi.
  simpl in Hlo, Hhi.
  split; lra.
Qed.

Lemma derivable_pt_lim_eq (f : R -> R) (x l l' : R) :
  derivable_pt_lim f x l' -> l' = l -> derivable_pt_lim f x l.
Proof. intros H <-; exact H. Qed.

(** Derivatives of expressions built from constants, the variable,
    [+ - * /], powers and [exp]: the rules are applied following the
    syntax, and the value found is compared by [field]. *)
Ltac deriv_rules :=
  lazymatch goal with
  | |- derivable_pt_lim (fun _ => ?c) _ _ => apply derivable_pt_lim_const
  | |- derivable_pt_lim (fun x => x) _ _ => apply derivable_pt_lim_id
  | |- derivable_pt_lim (fun x => @?f x + @?g x) _ _ =>
      eapply (derivable_pt_lim_plus f g); deriv_rules
  | |- derivable_pt_lim (fun x => @?f x - @?g x) _ _ =>
      eapply (derivable_pt_lim_minus f g); deriv_rules
  | |- derivable_pt_lim (fun x => @?f x * @?g x) _ _ =>
      eapply (derivable_pt_lim_mult f g); deriv_rules
  | |- derivable_pt_lim (fun x => @?f x / ?c) _ _ =>
      eapply (@derivable_pt_lim_div_scal f _ _ c); deriv_rules
  | |- derivable_pt_lim (fun x => - @?f x) _ _ =>
      eapply (derivable_pt_lim_opp f); deriv_rules
  | |- derivable_pt_lim (fun x => x ^ ?n) _ _ =>
      apply (derivable_pt_lim_pow _ n)
  | |- derivable_pt_lim (fun x => exp (@?f x)) _ _ =>
      eapply (derivable_pt_lim_comp f exp);
      [deriv_rules | apply derivable_pt_lim_exp]
  end.

Ltac deriv :=
  eapply derivable_pt_lim_eq; [deriv_rules | simpl; try field].

Lemma nonneg_from_zero (F F' : R -> R) :
  (forall x, derivable_pt_lim F x (F' x)) -> F 0 = 0 ->
  (forall x, 0 <= x -> 0 <= F' x) ->
  forall x, 0 <= x -> 0 <= F x.
Proof.
  intros HF H0 Hpos x [Hx | <-]; [| lra].
  destruct (MVT_cor2 F F' 0 x Hx (fun c _ => HF c)) as (c & Hc & Hc0 & Hc1).
  assert (0 <= F' c) by (apply Hpos; lra). nra.
Qed.

(** Taylor bounds of [exp (- s)] for [s >= 0]. *)
Lemma exp_neg_ge_1 (s : R) : 1 - s <= exp (- s).
Proof. pose proof (exp_ineq1_le (- s)). lra. Qed.

Lemma exp_neg_le_2 (s : R) : 0 <= s -> exp (- s) <= 1 - s + s ^ 2 / 2.
Proof.
  intros Hs. apply Rge_le, Rminus_ge, Rle_ge.
  apply (@nonneg_from_zero (fun s => 1 - s + s ^ 2 / 2 - exp (- s))
           (fun s => exp (- s) - (1 - s))); try assumption.
  - intros x. deriv.
  - rewrite Ropp_0, exp_0. field.
  - intros x _. pose proof (exp_neg_ge_1 x). lra.
Qed.

Lemma exp_neg_ge_3 (s : R) :
  0 <= s -> 1 - s + s ^ 2 / 2 - s ^ 3 / 6 <= exp (- s).
Proof.
  intros Hs. apply Rge_le, Rminus_ge, Rle_ge.
  apply (@nonneg_from_zero
           (fun s => exp (- s) - (1 - s + s ^ 2 / 2 - s ^ 3 / 6))
           (fun s => 1 - s + s ^ 2 / 2 - exp (- s))); try assumption.
  - intros x. deriv.
  - rewrite Ropp_0, exp_0. field.
  - intros x Hx. pose proof (exp_neg_le_2 Hx). lra.
Qed.

Lemma exp_neg_le_4 (s : R) :
  0 <= s -> exp (- s) <= 1 - s + s ^ 2 / 2 - s ^ 3 / 6 + s ^ 4 / 24.
Proof.
  intros Hs. apply Rge_le, Rminus_ge, Rle_ge.
  apply (@nonneg_from_zero
           (fun s => 1 - s + s ^ 2 / 2 - s ^ 3 / 6 + s ^ 4 / 24 - exp (- s))
           (fun s => exp (- s) - (1 - s + s ^ 2 / 2 - s ^ 3 / 6)));
    try assumption.
  - intros x. deriv.
  - rewrite Ropp_0, exp_0. field.
  - intros x Hx. pose proof (exp_neg_ge_3 Hx). lra.
Qed.

Lemma gauss_poly_bounds (t : R) :
  1 - t ^ 2 / 2 + t ^ 4 / 8 - t ^ 6 / 48 <= gauss t
  <= 1 - t ^ 2 / 2 + t ^ 4 / 8.
Proof.
  assert (Hs : 0 <= t ^ 2 / 2) by nra.
  pose proof (exp_neg_ge_3 Hs) as H3. pose proof (exp_neg_le_2 Hs) as H2.
  unfold gauss. replace (- t ^ 2 / 2) with (- (t ^ 2 / 2)) by field.
  split.
  - eapply Rle_trans; [| exact H3]. right. field.
  - eapply Rle_trans; [exact H2 |]. right. field.
Qed.

(** Polynomial bounds of the integral of the kernel. *)
Lemma gauss_int_poly_bounds (x : R) :
  0 <= x ->
  x - x ^ 3 / 6 + x ^ 5 / 40 - x ^ 7 / 336 <= gauss_int x
  <= x - x ^ 3 / 6 + x ^ 5 / 40.
Proof.
  intros Hx. split.
  - apply Rge_le, Rminus_ge, Rle_ge.
    apply (@nonneg_from_zero
             (fun x => gauss_int x
                       - (x - x ^ 3 / 6 + x ^ 5 / 40 - x ^ 7 / 336))
             (fun x => gauss x
                       - (1 - x ^ 2 / 2 + x ^ 4 / 8 - x ^ 6 / 48)));
      try assumption.
    + intros y.
      apply (derivable_pt_lim_minus gauss_int
               (fun x => x - x ^ 3 / 6 + x ^ 5 / 40 - x ^ 7 / 336)).
      * apply gauss_int_derivable.
      * deriv.
    + rewrite gauss_int_0. field.
    + intros y _. pose proof (gauss_poly_bounds y). lra.
  - apply Rge_le, Rminus_ge, Rle_ge.
    apply (@nonneg_from_zero
             (fun x => x - x ^ 3 / 6 + x ^ 5 / 40 - gauss_int x)
             (fun x => 1 - x ^ 2 / 2 + x ^ 4 / 8 - gauss x));
      try assumption.
    + intros y.
      apply (derivable_pt_lim_minus
               (fun x => x - x ^ 3 / 6 + x ^ 5 / 40) gauss_int).
      * deriv.
      * apply gauss_int_derivable.
    + rewrite gauss_int_0. field.
    + intros y _. pose proof (gauss_poly_bounds y). lra.
Qed.

Lemma sqrt_2PI_bounds : 2.50659 < sqrt (2 * PI) < 2.50664.
Proof.
  pose proof PI_bounds as [Hlo Hhi].
  pose proof sqrt_2PI_pos as Hc. pose proof sqrt_2PI_sqr as Hcc.
  split; nra.
Qed.

(** The reference input: [d1 = 0.35] and [d2 = 0.15]. *)
Lemma reference_call_form :
  black_scholes_call 100 100 1 0.05 0.2
  = 100 * norm_cdf_R 0.35 - 100 * exp (- (0.05)) * norm_cdf_R 0.15.
Proof.
  unfold black_scholes_call. real_ops. rewrite lit_half, sqrt_1.
  replace (100 / 100) with 1 by lra. rewrite ln_1.
  replace ((0 + (0.05 + 1 / 2 * 0.2 ^ 2) * 1) / (0.2 * 1)) with 0.35 by lra.
  replace (0.35 - 0.2 * 1) with 0.15 by lra.
  replace (- (0.05) * 1) with (- (0.05)) by lra.
  reflexivity.
Qed.

(** Enclosures of the three transcendental values the reference prices
    need. *)
Lemma reference_enclosures :
  0.6368300 <= norm_cdf_R 0.35 <= 0.6368335
  /\ 0.5596174 <= norm_cdf_R 0.15 <= 0.5596187
  /\ 0.9512291 <= exp (- (0.05)) <= 0.9512295.
Proof.
  pose proof sqrt_2PI_bounds as [Hcl Hcu].
  assert (H35 : 0 <= 0.35) by lra. assert (H15 : 0 <= 0.15) by lra.
  assert (H05 : 0 <= 0.05) by lra.
  pose proof (gauss_int_poly_bounds H35) as [J1l J1u].
  pose proof (gauss_int_poly_bounds H15) as [J2l J2u].
  pose proof (exp_neg_ge_3 H05) as El. pose proof (exp_neg_le_4 H05) as Eu.
  rewrite !norm_cdf_R_gauss.
  set (c := sqrt (2 * PI)) in *.
  set (J1 := gauss_int 0.35) in *. set (J2 := gauss_int 0.15) in *.
  assert (Hq : forall J lo hi : R,
             lo * c <= J -> J <= hi * c -> lo <= J / c <= hi).
  { intros J lo hi Hlo Hhi. split.
    - apply Rmult_le_reg_r with c; [lra |].
      unfold Rdiv. rewrite Rmult_assoc, Rinv_l, Rmult_1_r by lra. exact Hlo.
    - apply Rmult_le_reg_r with c; [lra |].
      unfold Rdiv. rewrite Rmult_assoc, Rinv_l, Rmult_1_r by lra. exact Hhi. }
  assert (Hq1 : 0.1368300 <= J1 / c <= 0.1368335) by (apply Hq; lra).
  assert (Hq2 : 0.0596174 <= J2 / c <= 0.0596187) by (apply Hq; lra).
  repeat split; lra.
Qed.

(** ** Grids over the reals *)

(** Over the reals the samples of [linspace] are evenly spaced, the last
    one included. *)
Lemma of_nat_INR (n : nat) : of_nat n = INR n.
Proof.
  unfold of_nat. cbn [lit R_numeric]. unfold Q2R. simpl.
  rewrite <- INR_IZR_INZ. field.
Qed.

Lemma linspace_R_nth_error (start stop : R) (num k : nat) :
  (2 <= num)%nat -> (k < num)%nat ->
  nth_error (linspace start stop num) k
  = Some (start + INR k * ((stop - start) / INR (num - 1))).
Proof.
  intros Hnum Hk. rewrite linspace_nth_error by assumption. f_equal.
  rewrite !of_nat_INR. cbn [add sub mul div R_numeric].
  assert (Hn : 0 < INR (num - 1)) by (apply lt_0_INR; lia).
  destruct (Nat.eqb_spec k (num - 1)) as [-> | _].
  - field. lra.
  - ring.
Qed.

(** ** Special values and saturation *)

(** *** Evaluation on finite values *)

Lemma xr_div_fin (a b : R) : b <> 0 -> xr_div (Fin a) (Fin b) = Fin (a / b).
Proof.
  intros Hb. unfold xr_div.
  destruct (Req_dec_T b 0); [contradiction | reflexivity].
Qed.

Lemma xr_div_zero (a b : R) : b = 0 -> xr_div (Fin a) (Fin b) = over_zero a.
Proof.
  intros Hb. unfold xr_div.
  destruct (Req_dec_T b 0); [reflexivity | contradiction].
Qed.

Lemma over_zero_pos (a : R) : 0 < a -> over_zero a = PInf.
Proof.
  intros Ha. unfold over_zero.
  destruct (total_order_T a 0) as [[H | H] | H]; [lra | lra | reflexivity].
Qed.

Lemma over_zero_neg (a : R) : a < 0 -> over_zero a = NInf.
Proof.
  intros Ha. unfold over_zero.
  destruct (total_order_T a 0) as [[H | H] | H]; [reflexivity | lra | lra].
Qed.

Lemma over_zero_zero (a : R) : a = 0 -> over_zero a = NaN.
Proof.
  intros Ha. unfold over_zero.
  destruct (total_order_T a 0) as [[H | H] | H]; [lra | reflexivity | lra].
Qed.

Lemma xr_log_fin (a : R) : 0 < a -> xr_log (Fin a) = Fin (ln a).
Proof.
  intros Ha. unfold xr_log.
  destruct (total_order_T a 0) as [[H | H] | H]; [lra | lra | reflexivity].
Qed.

Lemma xr_sqrt_fin (a : R) : 0 <= a -> xr_sqrt (Fin a) = Fin (sqrt a).
Proof.
  intros Ha. unfold xr_sqrt.
  destruct (Rle_dec 0 a); [reflexivity | contradiction].
Qed.

(** *** Saturation *)

(** [exp 770] exceeds [2^1075]: from [exp 1 >= 8/3] and
    [(8/3)^5 >= 2^7]. *)
Lemma exp_nat_mult (n : nat) (x : R) : exp (INR n * x) = exp x ^ n.
Proof.
  induction n as [| n IH].
  - simpl. rewrite Rmult_0_l. apply exp_0.
  - rewrite S_INR, Rmult_plus_distr_r, Rmult_1_l, exp_plus, IH. simpl. ring.
Qed.

Lemma exp_1_lower : 8 / 3 <= exp 1.
Proof.
  assert (H : exp (- (1)) <= 3 / 8).
  { eapply Rle_trans; [apply exp_neg_le_4; lra |]. simpl. lra. }
  rewrite exp_Ropp in H.
  pose proof (exp_pos 1) as Hp.
  apply Rmult_le_reg_r with (/ exp 1); [apply Rinv_0_lt_compat; exact Hp |].
  rewrite Rinv_r by lra.
  lra.
Qed.

Lemma exp_770 : 2 ^ 1075 <= exp 770.
Proof.
  assert (H5 : 2 ^ 7 <= exp 5).
  { replace 5 with (INR 5 * 1) by (simpl; lra).
    rewrite exp_nat_mult.
    eapply Rle_trans; [| apply pow_incr; split; [| apply exp_1_lower]; lra].
    simpl. lra. }
  replace 770 with (INR 154 * 5) by (rewrite INR_IZR_INZ; simpl; lra).
  rewrite exp_nat_mult.
  eapply Rle_trans; [| apply pow_incr; split; [| exact H5]; simpl; lra].
  rewrite <- pow_mult.
  apply Rle_pow; [lra | lia].
Qed.

(** Beyond [40] in absolute value the density, and with it each tail of
    the law, is below half of the smallest positive binary64 number. *)
Lemma gauss_far (d : R) : 40 <= Rabs d -> gauss d <= / 2 ^ 1075.
Proof.
  intros Hd. unfold gauss.
  assert (Hsq : 1600 <= d ^ 2).
  { unfold Rabs in Hd. destruct (Rcase_abs d); nra. }
  apply Rle_trans with (exp (- (770))).
  - destruct (Req_dec (- d ^ 2 / 2) (- (770))) as [-> | Hne]; [lra |].
    left. apply exp_increasing. lra.
  - rewrite exp_Ropp.
    apply Rinv_le_contravar; [apply pow_lt; lra | apply exp_770].
Qed.

Lemma pow_2_order : / 2 ^ 1075 <= / 2 ^ 54 /\ 0 < / 2 ^ 1075 /\ / 2 ^ 54 <= / 4.
Proof.
  split; [| split].
  - apply Rinv_le_contravar; [apply pow_lt; lra | apply Rle_pow; [lra | lia]].
  - apply Rinv_0_lt_compat, pow_lt. lra.
  - replace 4 with (2 ^ 2) by (simpl; lra).
    apply Rinv_le_contravar; [apply pow_lt; lra | apply Rle_pow; [lra | lia]].
Qed.

(** There [norm.pdf] returns [0] and [norm.cdf] returns [1] or [0]. *)
Lemma flush_pdf_far (d : R) : 40 <= Rabs d -> flush (norm_pdf_R d) = 0.
Proof.
  intros Hd. unfold flush.
  destruct (Rle_dec (norm_pdf_R d) (/ 2 ^ 1075)) as [_ | Hn]; [reflexivity |].
  exfalso. apply Hn.
  eapply Rle_trans; [| apply (gauss_far d Hd)].
  rewrite norm_pdf_R_gauss.
  pose proof (gauss_pos d) as Hg.
  pose proof sqrt_2PI_bounds as [Hs _].
  assert (Hi : / sqrt (2 * PI) <= 1).
  { rewrite <- Rinv_1. apply Rinv_le_contravar; lra. }
  nra.
Qed.

Lemma round_unit_high (d : R) : 40 <= d -> round_unit (norm_cdf_R d) = 1.
Proof.
  intros Hd. unfold round_unit.
  destruct (Rle_dec (1 - / 2 ^ 54) (norm_cdf_R d)) as [_ | Hn]; [reflexivity |].
  exfalso. apply Hn.
  assert (Ha : 40 <= Rabs d) by (rewrite Rabs_right; lra).
  pose proof (gauss_far d Ha) as Hg.
  assert (Hp : 0 < d) by lra.
  pose proof (norm_cdf_R_tail Hp) as Ht.
  pose proof pow_2_order as (H1 & _ & _). lra.
Qed.

Lemma round_unit_low (d : R) : d <= - 40 -> round_unit (norm_cdf_R d) = 0.
Proof.
  intros Hd.
  assert (Ha : 40 <= Rabs d) by (rewrite Rabs_left; lra).
  pose proof (gauss_far d Ha) as Hg.
  assert (Hpos : 0 < - d) by lra.
  pose proof (norm_cdf_R_tail Hpos) as Ht.
  rewrite norm_cdf_R_opp, gauss_even in Ht.
  pose proof pow_2_order as (H1 & H2 & H3).
  unfold round_unit, flush.
  destruct (Rle_dec (1 - / 2 ^ 54) (norm_cdf_R d)) as [Hc | _]; [lra |].
  destruct (Rle_dec (norm_cdf_R d) (/ 2 ^ 1075)) as [_ | Hn]; [reflexivity |].
  exfalso. apply Hn. lra.
Qed.

(** Rounding at the ends keeps a result in the closed interval. *)
Lemma flush_range (y : R) : 0 < y -> 0 <= flush y <= y.
Proof.
  intros Hy. unfold flush. destruct (Rle_dec y (/ 2 ^ 1075)); lra.
Qed.

Lemma round_unit_range (y : R) : 0 < y < 1 -> 0 <= round_unit y <= 1.
Proof.
  intros Hy. unfold round_unit.
  destruct (Rle_dec (1 - / 2 ^ 54) y); [lra |].
  pose proof (@flush_range y). lra.
Qed.

(** *** The Greeks at the ends of the range *)

(** On valid inputs every operation of [d1] meets finite values only. *)
Lemma d1_X_finite (S K T r sigma : R) :
  0 < S -> 0 < K -> 0 < T -> 0 < sigma ->
  ((np_log (Fin S / Fin K) + (Fin r + lit 0.5%Q * Fin sigma ** 2) * Fin T)
   / (Fin sigma * np_sqrt (Fin T)))%num
  = Fin ((ln (S / K) + (r + Q2R 0.5 * sigma ^ 2) * T) / (sigma * sqrt T)).
Proof.
  intros HS HK HT Hsig.
  assert (Hq : 0 < S / K) by (apply Rdiv_lt_0_compat; assumption).
  assert (Hs : 0 < sqrt T) by (apply sqrt_lt_R0; exact HT).
  cbn [lit add sub mul div neg power np_log np_sqrt X_numeric].
  rewrite xr_div_fin by lra.
  rewrite (xr_log_fin Hq), xr_sqrt_fin by lra.
  cbn [xr_pow xr_mul xr_add].
  rewrite xr_div_fin by nra.
  reflexivity.
Qed.

Lemma ln_2_lower : 0.65 <= ln 2.
Proof.
  assert (H : / 2 <= exp (- (0.65))).
  { eapply Rle_trans; [| apply exp_neg_ge_3; lra]. simpl. lra. }
  rewrite <- (ln_exp 0.65).
  destruct (Req_dec (exp 0.65) 2) as [-> | Hne]; [lra |].
  left. apply ln_increasing; [apply exp_pos |].
  rewrite exp_Ropp in H.
  pose proof (exp_pos 0.65) as Hp.
  assert (Hle : exp 0.65 <= 2).
  { apply Rinv_le_contravar in H; [| lra].
    rewrite Rinv_inv in H. rewrite Rinv_inv in H. exact H. }
  lra.
Qed.

Lemma sqrt_tenth : 0 < sqrt 0.1 <= 0.32.
Proof.
  assert (Hp : 0 < sqrt 0.1) by (apply sqrt_lt_R0; lra).
  assert (Hs : sqrt 0.1 * sqrt 0.1 = 0.1) by (apply sqrt_sqrt; lra).
  split; [exact Hp | nra].
Qed.

(** The two corners of the slider ranges where [norm.cdf] and
    [norm.pdf] leave the open unit interval: [d1] is about [44] at
    [S = 200], [K = 50] and about [-44] at [S = 50], [K = 200] (with
    [T = 0.1], [r = 0.05], [sigma = 0.1]). *)
Lemma d1_deep_in_the_money :
  40 <= (ln (200 / 50) + (0.05 + Q2R 0.5 * 0.1 ^ 2) * 0.1) / (0.1 * sqrt 0.1).
Proof.
  pose proof sqrt_tenth as [Hs1 Hs2].
  pose proof ln_2_lower as Hl.
  assert (H4 : ln (200 / 50) = ln 2 + ln 2).
  { replace (200 / 50) with (2 * 2) by lra. apply ln_mult; lra. }
  rewrite H4, lit_half.
  set (v := 0.1 * sqrt 0.1).
  assert (Hv : 0 < v <= 0.032) by (unfold v; lra).
  apply Rmult_le_reg_r with v; [lra |].
  unfold Rdiv at 1. rewrite Rmult_assoc, Rinv_l by lra.
  simpl. nra.
Qed.

Lemma d1_deep_out_of_the_money :
  (ln (50 / 200) + (0.05 + Q2R 0.5 * 0.1 ^ 2) * 0.1) / (0.1 * sqrt 0.1)
  <= - (40).
Proof.
  pose proof sqrt_tenth as [Hs1 Hs2].
  pose proof ln_2_lower as Hl.
  assert (H4 : ln (50 / 200) = - (ln 2 + ln 2)).
  { replace (50 / 200) with (/ (2 * 2)) by lra.
    rewrite ln_Rinv by lra. f_equal. apply ln_mult; lra. }
  rewrite H4, lit_half.
  set (v := 0.1 * sqrt 0.1).
  assert (Hv : 0 < v <= 0.032) by (unfold v; lra).
  apply Rmult_le_reg_r with v; [lra |].
  unfold Rdiv at 1. rewrite Rmult_assoc, Rinv_l by lra.
  simpl. nra.
Qed.

(** Over the exact reals the Delta stays inside the open intervals and
    the Gamma is positive: the strict bounds are those of the normal
    law, not of the binary64 values the script returns. *)
Lemma option_greeks_sanity_exact (S K T r sigma : R) :
  0 < S -> 0 < K -> 0 < T -> 0 < sigma ->
  0 < Delta (option_greeks S K T r sigma "call") < 1
  /\ -1 < Delta (option_greeks S K T r sigma "put") < 0
  /\ (forall option : string,
        0 < Gamma (option_greeks S K T r sigma option)).
Proof.
  intros HS HK HT Hsig.
  set (d1 := (ln (S / K) + (r + Q2R 0.5 * sigma ^ 2) * T) / (sigma * sqrt T)).
  pose proof (norm_cdf_R_bounds d1) as Hcdf.
  split; [| split].
  - unfold option_greeks. simpl String.eqb. real_ops. exact Hcdf.
  - unfold option_greeks. simpl String.eqb. real_ops. fold d1.
    rewrite lit_1. lra.
  - intros option. unfold option_greeks.
    destruct (String.eqb option "call"); real_ops; fold d1;
      (apply Rdiv_lt_0_compat;
       [apply norm_pdf_R_pos
       | repeat apply Rmult_lt_0_compat; try assumption;
         apply sqrt_lt_R0; exact HT]).
Qed.

(** *** The singularity at [T = 0] and [sigma = 0] *)

Section Singularity.

Variables S K T r sigma : R.
Hypothesis HS : 0 < S.
Hypothesis HK : 0 < K.
Hypothesis HT : 0 <= T.
Hypothesis Hsigma : 0 <= sigma.
Hypothesis Hzero : T = 0 \/ sigma = 0.

Let N : R := ln (S / K) + (r + Q2R 0.5 * sigma ^ 2) * T.

(** The divisor of [d1] is zero, over the reals and as the script
    computes it; the numerator is a finite number [N]; the quotient is
    what a division by zero returns. *)
Lemma divisor_zero : sigma * sqrt T = 0.
Proof. destruct Hzero as [-> | ->]; [rewrite sqrt_0 |]; ring. Qed.

Lemma divisor_X_zero : (Fin sigma * np_sqrt (Fin T))%num = Fin 0.
Proof.
  cbn [mul np_sqrt X_numeric]. rewrite xr_sqrt_fin by exact HT.
  cbn [xr_mul]. f_equal. apply divisor_zero.
Qed.

Lemma numerator_X_finite :
  (np_log (Fin S / Fin K) + (Fin r + lit 0.5%Q * Fin sigma ** 2) * Fin T)%num
  = Fin N.
Proof.
  assert (Hq : 0 < S / K) by (apply Rdiv_lt_0_compat; assumption).
  cbn [lit add mul div power np_log X_numeric].
  rewrite xr_div_fin by lra. rewrite (xr_log_fin Hq). reflexivity.
Qed.

Lemma d1_X_singular :
  ((np_log (Fin S / Fin K) + (Fin r + lit 0.5%Q * Fin sigma ** 2) * Fin T)
   / (Fin sigma * np_sqrt (Fin T)))%num
  = over_zero N.
Proof.
  rewrite numerator_X_finite, divisor_X_zero.
  cbn [div X_numeric]. now apply xr_div_zero.
Qed.

End Singularity.

(** Evaluation of the formulas once [d1] is an infinity or nan. *)
Ltac singular_eval HT :=
  cbv zeta;
  cbn [lit add sub mul div neg power np_log np_sqrt np_exp norm_cdf norm_pdf
       X_numeric Delta Gamma Vega Theta Rho];
  rewrite ?(xr_sqrt_fin HT);
  cbn [xr_add xr_sub xr_neg xr_mul xr_pow xr_exp xr_cdf xr_pdf].

(** * The properties of the specification *)

(** C1: put-call parity.  Over the reals the call price minus the put
    price is exactly [S - K * exp (- r * T)], for all valid
    [S, K, T, r, sigma]. *)
Theorem put_call_parity :
  forall S K T r sigma : R,
    0 < S -> 0 < K -> 0 < T -> 0 < sigma ->
    black_scholes_call S K T r sigma - black_scholes_put S K T r sigma
    = S - K * exp (- r * T).
Proof.
  intros S K T r sigma _ _ _ _.
  unfold black_scholes_call, black_scholes_put. real_ops.
  (* cdf(-d) = 1 - cdf(d), for d1 and for d2 *)
  rewrite !norm_cdf_R_opp. ring.
Qed.

Lemma put_call_parity_witness :
  black_scholes_call 100 100 1 (5 / 100) (2 / 10)
  - black_scholes_put 100 100 1 (5 / 100) (2 / 10)
  = 100 - 100 * exp (- (5 / 100) * 1).
Proof. apply put_call_parity; lra. Defined.

(** C2, counterexample: the bounds are not strict for the values the
    script returns.  At [S = 200], [K = 50] [d1] is about [44]:
    [norm.cdf] returns exactly [1] and [norm.pdf] exactly [0], so the
    Delta of a call is [1], the Delta of a put is [0] and the Gamma is
    [0]; at [S = 50], [K = 200] [d1] is about [-44]: the Delta of a call
    is [0], the Delta of a put is [-1] and the Gamma is [0] (with
    [T = 0.1], [r = 0.05], [sigma = 0.1], all inside the ranges of the
    sliders). *)
Lemma option_greeks_bounds_attained :
  let deep_in := fun option : string =>
    option_greeks (Fin 200) (Fin 50) (Fin 0.1) (Fin 0.05) (Fin 0.1) option in
  let deep_out := fun option : string =>
    option_greeks (Fin 50) (Fin 200) (Fin 0.1) (Fin 0.05) (Fin 0.1) option in
  (Delta (deep_in "call"%string) = Fin 1
   /\ Delta (deep_in "put"%string) = Fin 0
   /\ Gamma (deep_in "call"%string) = Fin 0
   /\ Gamma (deep_in "put"%string) = Fin 0)
  /\ (Delta (deep_out "call"%string) = Fin 0
      /\ Delta (deep_out "put"%string) = Fin (-1)
      /\ Gamma (deep_out "call"%string) = Fin 0
      /\ Gamma (deep_out "put"%string) = Fin 0)
  /\ ~ (exists x : R, Delta (deep_in "call"%string) = Fin x /\ 0 < x < 1)
  /\ ~ (exists x : R, Delta (deep_in "put"%string) = Fin x /\ -1 < x < 0)
  /\ ~ (exists x : R, Gamma (deep_in "call"%string) = Fin x /\ 0 < x)
  /\ ~ (exists x : R, Gamma (deep_in "put"%string) = Fin x /\ 0 < x)
  /\ ~ (exists x : R, Delta (deep_out "call"%string) = Fin x /\ 0 < x < 1)
  /\ ~ (exists x : R, Delta (deep_out "put"%string) = Fin x /\ -1 < x < 0).
Proof.
  intros deep_in deep_out.
  pose proof sqrt_tenth as [Hs1 Hs2].
  assert (Hin : forall option : string,
            Delta (deep_in option)
            = (if String.eqb option "call" then Fin 1 else Fin 0)
            /\ Gamma (deep_in option) = Fin 0).
  { intros option. unfold deep_in, option_greeks.
    rewrite d1_X_finite by lra.
    pose proof d1_deep_in_the_money as Hd.
    set (d := (ln (200 / 50) + (0.05 + Q2R 0.5 * 0.1 ^ 2) * 0.1)
              / (0.1 * sqrt 0.1)) in *.
    assert (Ha : 40 <= Rabs d) by (rewrite Rabs_right; lra).
    destruct (String.eqb option "call"); cbv zeta; cbn [Delta Gamma];
      cbn [sub mul div np_sqrt norm_cdf norm_pdf lit X_numeric xr_cdf xr_pdf];
      rewrite (round_unit_high Hd), (flush_pdf_far d Ha),
        xr_sqrt_fin by lra;
      cbn [xr_mul xr_sub xr_add xr_neg]; rewrite xr_div_fin by nra;
      (split; f_equal; rewrite ?lit_1; unfold Rdiv; ring). }
  assert (Hout : forall option : string,
            Delta (deep_out option)
            = (if String.eqb option "call" then Fin 0 else Fin (-1))
            /\ Gamma (deep_out option) = Fin 0).
  { intros option. unfold deep_out, option_greeks.
    rewrite d1_X_finite by lra.
    pose proof d1_deep_out_of_the_money as Hd.
    set (d := (ln (50 / 200) + (0.05 + Q2R 0.5 * 0.1 ^ 2) * 0.1)
              / (0.1 * sqrt 0.1)) in *.
    assert (Ha : 40 <= Rabs d) by (rewrite Rabs_left; lra).
    destruct (String.eqb option "call"); cbv zeta; cbn [Delta Gamma];
      cbn [sub mul div np_sqrt norm_cdf norm_pdf lit X_numeric xr_cdf xr_pdf];
      rewrite (round_unit_low Hd), (flush_pdf_far d Ha),
        xr_sqrt_fin by lra;
      cbn [xr_mul xr_sub xr_add xr_neg]; rewrite xr_div_fin by nra;
      (split; f_equal; rewrite ?lit_1; unfold Rdiv; ring). }
  destruct (Hin "call"%string) as [HDc HGc].
  destruct (Hin "put"%string) as [HDp HGp].
  destruct (Hout "call"%string) as [HDc' HGc'].
  destruct (Hout "put"%string) as [HDp' HGp'].
  simpl String.eqb in HDc, HDp, HDc', HDp'.
  split; [repeat split; assumption |].
  split; [repeat split; assumption |].
  split; [| split; [| split; [| split; [| split]]]].
  - intros (x & Hx & Hb). rewrite HDc in Hx. injection Hx as <-. lra.
  - intros (x & Hx & Hb). rewrite HDp in Hx. injection Hx as <-. lra.
  - intros (x & Hx & Hb). rewrite HGc in Hx. injection Hx as <-. lra.
  - intros (x & Hx & Hb). rewrite HGp in Hx. injection Hx as <-. lra.
  - intros (x & Hx & Hb). rewrite HDc' in Hx. injection Hx as <-. lra.
  - intros (x & Hx & Hb). rewrite HDp' in Hx. injection Hx as <-. lra.
Qed.

(** C2, amended: for valid inputs the Delta that [option_greeks] returns
    lies between 0 and 1 for a call and between -1 and 0 for a put, and
    the Gamma is not negative for every option type; the ends of the
    intervals are included. *)
Theorem option_greeks_closed_bounds :
  forall S K T r sigma : R,
    0 < S -> 0 < K -> 0 < T -> 0 < sigma ->
    (exists x : R,
        Delta (option_greeks (Fin S) (Fin K) (Fin T) (Fin r) (Fin sigma) "call")
        = Fin x /\ 0 <= x <= 1)
    /\ (exists x : R,
        Delta (option_greeks (Fin S) (Fin K) (Fin T) (Fin r) (Fin sigma) "put")
        = Fin x /\ -1 <= x <= 0)
    /\ (forall option : string, exists x : R,
        Gamma (option_greeks (Fin S) (Fin K) (Fin T) (Fin r) (Fin sigma) option)
        = Fin x /\ 0 <= x).
Proof.
  intros S K T r sigma HS HK HT Hsig.
  pose proof (d1_X_finite r HS HK HT Hsig) as Hd1.
  set (d := (ln (S / K) + (r + Q2R 0.5 * sigma ^ 2) * T) / (sigma * sqrt T))
    in Hd1.
  pose proof (round_unit_range (norm_cdf_R_bounds d)) as Hc.
  pose proof (flush_range (norm_pdf_R_pos d)) as Hp.
  assert (Hs : 0 < sqrt T) by (apply sqrt_lt_R0; exact HT).
  assert (Hden : 0 < S * sigma * sqrt T)
    by (repeat apply Rmult_lt_0_compat; assumption).
  split; [| split].
  - exists (round_unit (norm_cdf_R d)). split; [| exact Hc].
    unfold option_greeks. simpl String.eqb. cbv zeta. cbn [Delta].
    rewrite Hd1. reflexivity.
  - exists (round_unit (norm_cdf_R d) - Q2R 1). split; [| rewrite lit_1; lra].
    unfold option_greeks. simpl String.eqb. cbv zeta. cbn [Delta].
    rewrite Hd1. reflexivity.
  - intros option.
    exists (flush (norm_pdf_R d) / (S * sigma * sqrt T)). split.
    + unfold option_greeks.
      destruct (String.eqb option "call"); cbv zeta; cbn [Gamma];
        rewrite Hd1;
        cbn [mul div np_sqrt norm_pdf X_numeric xr_pdf xr_mul];
        rewrite xr_sqrt_fin by lra; cbn [xr_mul];
        rewrite xr_div_fin by lra; reflexivity.
    + apply Rmult_le_pos; [lra |].
      left. apply Rinv_0_lt_compat. exact Hden.
Qed.

Lemma option_greeks_closed_bounds_witness :
  (exists x : R,
      Delta (option_greeks (Fin 100) (Fin 100) (Fin 1) (Fin (5 / 100))
               (Fin (2 / 10)) "call") = Fin x /\ 0 <= x <= 1)
  /\ (exists x : R,
      Gamma (option_greeks (Fin 100) (Fin 100) (Fin 1) (Fin (5 / 100))
               (Fin (2 / 10)) "put") = Fin x /\ 0 <= x).
Proof.
  destruct (@option_greeks_closed_bounds 100 100 1 (5 / 100) (2 / 10))
    as (Hc & _ & Hg); [lra | lra | lra | lra |].
  split; [exact Hc | apply Hg].
Defined.

(** C3: every [option] argument other than the lower-case string "call"
    makes [option_greeks] return the Delta, Theta and Rho of its [else]
    (put) branch and makes [plot_pnl_heatmap] price every cell with
    [black_scholes_put]: cell [(i, j)] is the put price at the [i]-th
    spot and [j]-th volatility of the grid minus the purchase price.
    The radio selector passes "Call" or "Put", so the dashboard shows
    the put Greeks and the put heatmap for both choices. *)
Theorem non_call_option_runs_put_code :
  forall (A : Type) (N : Numeric A) (S K T r sigma purchase_price : A)
         (option greek : string),
    option <> "call"%string ->
    let d1 := ((np_log (S / K) + (r + lit 0.5%Q * sigma ** 2) * T)
               / (sigma * np_sqrt T))%num in
    let d2 := (d1 - sigma * np_sqrt T)%num in
    let pdf := norm_pdf d1 in
    let g := option_greeks S K T r sigma option in
    let put_cell := fun i j : nat =>
      (black_scholes_put (nth i heatmap_S_vals (lit 0%Q)) K T r
         (nth j heatmap_sigma_vals (lit 0%Q)) - purchase_price)%num in
    Delta g = (norm_cdf d1 - lit 1%Q)%num
    /\ Theta g = (- (S * pdf * sigma) / (lit 2%Q * np_sqrt T)
                  + r * K * np_exp (- r * T) * norm_cdf (- d2))%num
    /\ Rho g = (- K * T * np_exp (- r * T) * norm_cdf (- d2))%num
    /\ (forall S' sig : A,
          heatmap_price K T r option S' sig = black_scholes_put S' K T r sig)
    /\ plot_pnl_heatmap K T r purchase_price option
       = plot_pnl_heatmap K T r purchase_price "put"
    /\ (forall i j : nat, (i < 8)%nat -> (j < 8)%nat ->
          get_cell (plot_pnl_heatmap K T r purchase_price option) i j
          = Some (put_cell i j))
    /\ (In option option_type_choices ->
        let shown := dashboard S K T r sigma purchase_price option greek in
        shown_greeks shown = option_greeks S K T r sigma "put"
        /\ shown_heatmap shown = plot_pnl_heatmap K T r purchase_price "put"
        /\ Delta (shown_greeks shown) = (norm_cdf d1 - lit 1%Q)%num
        /\ Theta (shown_greeks shown)
           = (- (S * pdf * sigma) / (lit 2%Q * np_sqrt T)
              + r * K * np_exp (- r * T) * norm_cdf (- d2))%num
        /\ Rho (shown_greeks shown)
           = (- K * T * np_exp (- r * T) * norm_cdf (- d2))%num
        /\ (forall i j : nat, (i < 8)%nat -> (j < 8)%nat ->
              get_cell (shown_heatmap shown) i j = Some (put_cell i j))).
Proof.
  intros A N S K T r sigma purchase_price option greek Hne d1 d2 pdf g
    put_cell.
  apply String.eqb_neq in Hne.
  assert (Hg : g = option_greeks S K T r sigma "put").
  { unfold g, option_greeks. rewrite Hne. reflexivity. }
  assert (Hm : plot_pnl_heatmap K T r purchase_price option
               = plot_pnl_heatmap K T r purchase_price "put").
  { unfold plot_pnl_heatmap, heatmap_loops, heatmap_price.
    rewrite Hne. reflexivity. }
  assert (Hcell : forall i j : nat, (i < 8)%nat -> (j < 8)%nat ->
            get_cell (plot_pnl_heatmap K T r purchase_price option) i j
            = Some (put_cell i j)).
  { intros i j Hi Hj. rewrite plot_pnl_heatmap_matrix.
    rewrite (get_cell_map2
               (fun S sig => heatmap_price K T r option S sig - purchase_price)%num
               heatmap_S_vals heatmap_sigma_vals (lit 0%Q) (lit 0%Q)).
    - unfold heatmap_price. rewrite Hne. reflexivity.
    - unfold heatmap_S_vals. rewrite linspace_length. exact Hi.
    - unfold heatmap_sigma_vals. rewrite linspace_length. exact Hj. }
  assert (HD : Delta g = (norm_cdf d1 - lit 1%Q)%num)
    by (rewrite Hg; reflexivity).
  assert (HT : Theta g = (- (S * pdf * sigma) / (lit 2%Q * np_sqrt T)
                  + r * K * np_exp (- r * T) * norm_cdf (- d2))%num)
    by (rewrite Hg; reflexivity).
  assert (HR : Rho g = (- K * T * np_exp (- r * T) * norm_cdf (- d2))%num)
    by (rewrite Hg; reflexivity).
  split; [exact HD |]. split; [exact HT |]. split; [exact HR |].
  split; [intros S' sig; unfold heatmap_price; rewrite Hne; reflexivity |].
  split; [exact Hm |]. split; [exact Hcell |].
  intros _ shown.
  split; [exact Hg |]. split; [exact Hm |].
  split; [exact HD |]. split; [exact HT |]. split; [exact HR |].
  exact Hcell.
Qed.

Lemma non_call_option_runs_put_code_witness :
  ("Call" <> "call")%string
  /\ Delta (option_greeks (A := R) 100 100 1 (5 / 100) (2 / 10) "Call")
     = norm_cdf_R ((ln (100 / 100) + (5 / 100 + Q2R 0.5 * (2 / 10) ^ 2) * 1)
                   / (2 / 10 * sqrt 1)) - Q2R 1
  /\ get_cell (shown_heatmap
                 (dashboard (A := R) 100 100 1 (5 / 100) (2 / 10) 10
                    "Call" "Delta")) 0 0
     = Some (black_scholes_put (A := R) 50 100 1 (5 / 100) (1 / 10) - 10).
Proof.
  assert (Hne : ("Call" <> "call")%string) by discriminate.
  split; [exact Hne |].
  destruct (@non_call_option_runs_put_code R R_numeric
              100 100 1 (5 / 100) (2 / 10) 10 "Call" "Delta" Hne)
    as (HD & _ & _ & _ & _ & _ & Happ).
  split; [exact HD |].
  destruct Happ as (_ & _ & _ & _ & _ & Hcell); [left; reflexivity |].
  rewrite (Hcell 0%nat 0%nat) by lia.
  cbn [nth heatmap_S_vals heatmap_sigma_vals linspace map seq set_nth
       Nat.sub of_nat lit add sub mul div R_numeric Z.of_nat inject_Z].
  do 3 f_equal; unfold inject_Z, Q2R; simpl; lra.
Defined.



(** C5: at [S = 100], [K = 100], [T = 1], [r = 0.05], [sigma = 0.2] the
    call price is 10.45 and the put price is 5.57, to two decimal
    places. *)
Theorem reference_prices :
  Rabs (black_scholes_call 100 100 1 0.05 0.2 - 10.45) < 0.005
  /\ Rabs (black_scholes_put 100 100 1 0.05 0.2 - 5.57) < 0.005.
Proof.
  pose proof (call_minus_put 100 100 1 0.05 0.2) as Hpar.
  replace (- (0.05) * 1) with (- (0.05)) in Hpar by lra.
  rewrite reference_call_form in *.
  destruct reference_enclosures as ((P1l & P1u) & (P2l & P2u) & (El & Eu)).
  set (p1 := norm_cdf_R 0.35) in *. set (p2 := norm_cdf_R 0.15) in *.
  set (e := exp (- (0.05))) in *.
  assert (Hep : 0.9512291 * 0.5596174 <= e * p2 <= 0.9512295 * 0.5596187)
    by (split; nra).
  split; apply Rabs_def1; lra.
Qed.

(** C6: when [T = 0] or [sigma = 0] (the other inputs valid) the divisor
    [sigma * sqrt T] of [d1] is zero, so [d1] is not a number of the
    reals: the division returns plus or minus infinity, by the sign of
    the numerator [N], or nan when [N = 0].  Nothing in
    [black_scholes_call], [black_scholes_put] or [option_greeks] stands
    between the inputs and that division, and none of them stops after
    it: each goes on with that [d1] and returns what the formulas give
    on it, a finite price for an infinite [d1], nan for a nan [d1], a
    Gamma that is always nan and, at [T = 0], a Theta that is always
    nan. *)
Theorem zero_T_or_sigma_not_guarded :
  forall S K T r sigma : R,
    0 < S -> 0 < K -> 0 <= T -> 0 <= sigma -> T = 0 \/ sigma = 0 ->
    let N := ln (S / K) + (r + Q2R 0.5 * sigma ^ 2) * T in
    let P := K * exp (- r * T) in
    let d1 :=
      ((np_log (Fin S / Fin K) + (Fin r + lit 0.5%Q * Fin sigma ** 2) * Fin T)
       / (Fin sigma * np_sqrt (Fin T)))%num in
    let call := black_scholes_call (Fin S) (Fin K) (Fin T) (Fin r) (Fin sigma) in
    let put := black_scholes_put (Fin S) (Fin K) (Fin T) (Fin r) (Fin sigma) in
    let greeks := option_greeks (Fin S) (Fin K) (Fin T) (Fin r) (Fin sigma) in
    sigma * sqrt T = 0
    /\ (Fin sigma * np_sqrt (Fin T))%num = Fin 0
    /\ (forall x : R, d1 <> Fin x)
    /\ (0 < N ->
        d1 = PInf /\ call = Fin (S - P) /\ put = Fin 0
        /\ Delta (greeks "call"%string) = Fin 1
        /\ Delta (greeks "put"%string) = Fin 0)
    /\ (N < 0 ->
        d1 = NInf /\ call = Fin 0 /\ put = Fin (P - S)
        /\ Delta (greeks "call"%string) = Fin 0
        /\ Delta (greeks "put"%string) = Fin (-1))
    /\ (N = 0 ->
        d1 = NaN /\ call = NaN /\ put = NaN
        /\ forall option : string, Delta (greeks option) = NaN)
    /\ (forall option : string, Gamma (greeks option) = NaN)
    /\ (T = 0 -> forall option : string, Theta (greeks option) = NaN).
Proof.
  intros S K T r sigma HS HK HT Hsigma Hzero N P d1 call put greeks.
  assert (Hdiv : sigma * sqrt T = 0) by (apply divisor_zero; assumption).
  assert (HdivX : (Fin sigma * np_sqrt (Fin T))%num = Fin 0)
    by (apply divisor_X_zero; assumption).
  assert (Hd1 : d1 = over_zero N)
    by (apply d1_X_singular; assumption).
  assert (Hgamma : forall p : xreal, p = Fin 0 \/ p = NaN ->
            xr_div p (Fin (S * sigma * sqrt T)) = NaN).
  { intros p [-> | ->]; [| reflexivity].
    rewrite xr_div_zero by (rewrite Rmult_assoc, Hdiv; ring).
    now apply over_zero_zero. }
  assert (Hpdf : xr_pdf d1 = Fin 0 \/ xr_pdf d1 = NaN).
  { rewrite Hd1. unfold over_zero.
    destruct (total_order_T N 0) as [[H | H] | H]; cbn; auto. }
  split; [exact Hdiv |]. split; [exact HdivX |].
  split.
  { intros x. rewrite Hd1. unfold over_zero.
    destruct (total_order_T N 0) as [[H | H] | H]; discriminate. }
  split; [| split; [| split; [| split]]].
  - intros HN. apply over_zero_pos in HN.
    split; [congruence |].
    unfold call, put, greeks, black_scholes_call, black_scholes_put,
      option_greeks.
    fold d1. rewrite Hd1, HN. simpl String.eqb. singular_eval HT.
    repeat split; f_equal; unfold P; rewrite ?lit_1; ring.
  - intros HN. apply over_zero_neg in HN.
    split; [congruence |].
    unfold call, put, greeks, black_scholes_call, black_scholes_put,
      option_greeks.
    fold d1. rewrite Hd1, HN. simpl String.eqb. singular_eval HT.
    repeat split; f_equal; unfold P; rewrite ?lit_1; ring.
  - intros HN. apply over_zero_zero in HN.
    split; [congruence |].
    unfold call, put, greeks, black_scholes_call, black_scholes_put,
      option_greeks.
    fold d1. rewrite Hd1, HN.
    split; [reflexivity |]. split; [reflexivity |].
    intros option. destruct (String.eqb option "call"); reflexivity.
  - intros option. unfold greeks, option_greeks. fold d1.
    destruct (String.eqb option "call"); cbv zeta; cbn [Gamma];
      cbn [mul div np_sqrt norm_pdf X_numeric];
      rewrite (xr_sqrt_fin HT); cbn [xr_mul]; apply Hgamma, Hpdf.
  - intros HT0 option. unfold greeks, option_greeks. fold d1.
    assert (Hfirst : xr_div (xr_neg (xr_mul (xr_mul (Fin S) (xr_pdf d1))
                                       (Fin sigma)))
                       (xr_mul (Fin (Q2R 2)) (xr_sqrt (Fin T))) = NaN).
    { rewrite (xr_sqrt_fin HT). cbn [xr_mul].
      destruct Hpdf as [-> | ->]; [| reflexivity].
      cbn [xr_mul xr_neg].
      rewrite xr_div_zero by (rewrite HT0, sqrt_0; ring).
      apply over_zero_zero. ring. }
    destruct (String.eqb option "call"); cbv zeta; cbn [Theta];
      cbn [lit sub add mul div neg np_sqrt norm_pdf X_numeric];
      rewrite Hfirst; reflexivity.
Qed.

Lemma zero_T_or_sigma_not_guarded_witness :
  black_scholes_call (Fin 110) (Fin 100) (Fin 0) (Fin 0.05) (Fin 0.2) = Fin 10
  /\ Delta (option_greeks (Fin 110) (Fin 100) (Fin 0) (Fin 0.05) (Fin 0.2)
              "call") = Fin 1
  /\ Theta (option_greeks (Fin 110) (Fin 100) (Fin 0) (Fin 0.05) (Fin 0.2)
              "call") = NaN
  /\ black_scholes_put (Fin 100) (Fin 100) (Fin 1) (Fin 0.05) (Fin 0) = Fin 0
  /\ Gamma (option_greeks (Fin 100) (Fin 100) (Fin 1) (Fin 0.05) (Fin 0)
              "put") = NaN.
Proof.
  assert (H0 : 0 < ln (110 / 100) + (0.05 + Q2R 0.5 * 0.2 ^ 2) * 0).
  { rewrite Rmult_0_r, Rplus_0_r, <- ln_1. apply ln_increasing; lra. }
  assert (H1 : 0 < ln (100 / 100) + (0.05 + Q2R 0.5 * 0 ^ 2) * 1).
  { replace (100 / 100) with 1 by lra. rewrite ln_1, lit_half. simpl. lra. }
  destruct (@zero_T_or_sigma_not_guarded 110 100 0 0.05 0.2)
    as (_ & _ & _ & Hpos & _ & _ & _ & Htheta);
    [lra | lra | lra | lra | left; reflexivity |].
  destruct (@zero_T_or_sigma_not_guarded 100 100 1 0.05 0)
    as (_ & _ & _ & Hpos' & _ & _ & Hgamma & _);
    [lra | lra | lra | lra | right; reflexivity |].
  destruct (Hpos H0) as (_ & Hcall & _ & Hdelta & _).
  destruct (Hpos' H1) as (_ & _ & Hput & _).
  split; [| split; [| split; [| split]]].
  - rewrite Hcall. f_equal. rewrite Rmult_0_r, exp_0. lra.
  - exact Hdelta.
  - apply Htheta. reflexivity.
  - exact Hput.
  - apply Hgamma.
Defined.

(** C7: [plot_pnl_heatmap] builds an 8-by-8 matrix whose entry [(i, j)]
    is the option price at spot [S_i] and volatility [sigma_j] minus the
    purchase price: the value of [black_scholes_call] for the option
    "call" and of [black_scholes_put] for every other option string.
    [S_0 .. S_7] are 8 linearly spaced values from 50 to 150 and
    [sigma_0 .. sigma_7] are 8 linearly spaced values from 0.1 to 0.6;
    the loops assign every entry exactly once, with that value. *)
Theorem plot_pnl_heatmap_grid :
  forall (A : Type) (N : Numeric A) (K T r purchase_price : A)
         (option : string),
    let S_ := fun i : nat => nth i heatmap_S_vals (lit 0%Q) in
    let sigma_ := fun j : nat => nth j heatmap_sigma_vals (lit 0%Q) in
    let entry := fun i j : nat =>
      ((if String.eqb option "call"
        then black_scholes_call (S_ i) K T r (sigma_ j)
        else black_scholes_put (S_ i) K T r (sigma_ j))
       - purchase_price)%num in
    let pnl := plot_pnl_heatmap K T r purchase_price option in
    let writes := heatmap_writes K T r purchase_price option in
    (forall i : nat, (i < 8)%nat ->
       S_ i = (if Nat.eqb i 7 then lit 150%Q
               else of_nat i * ((lit 150%Q - lit 50%Q) / of_nat 7)
                    + lit 50%Q)%num)
    /\ (forall j : nat, (j < 8)%nat ->
       sigma_ j = (if Nat.eqb j 7 then lit 0.6%Q
                   else of_nat j * ((lit 0.6%Q - lit 0.1%Q) / of_nat 7)
                        + lit 0.1%Q)%num)
    /\ List.length pnl = 8%nat
    /\ (forall row : list A, In row pnl -> List.length row = 8%nat)
    /\ (forall i j : nat, (i < 8)%nat -> (j < 8)%nat ->
          get_cell pnl i j = Some (entry i j))
    /\ List.length writes = 64%nat
    /\ (forall i j : nat, (i < 8)%nat -> (j < 8)%nat ->
          filter (fun w => Nat.eqb (fst (fst w)) i && Nat.eqb (snd (fst w)) j)
                 writes
          = [(i, j, entry i j)]).
Proof.
  intros A N K T r purchase_price option S_ sigma_ entry pnl writes.
  assert (HS : List.length (heatmap_S_vals (A := A)) = 8%nat)
    by apply linspace_length.
  assert (Hsig : List.length (heatmap_sigma_vals (A := A)) = 8%nat)
    by apply linspace_length.
  assert (Hnth : forall (l : list A) k v,
             nth_error l k = Some v -> nth k l (lit 0%Q) = v).
  { intros l k v Hk. now apply nth_error_nth. }
  split; [| split; [| split; [| split; [| split; [| split]]]]].
  - intros i Hi. apply Hnth. unfold heatmap_S_vals.
    rewrite linspace_nth_error by lia. reflexivity.
  - intros j Hj. apply Hnth. unfold heatmap_sigma_vals.
    rewrite linspace_nth_error by lia. reflexivity.
  - unfold pnl. rewrite plot_pnl_heatmap_matrix, length_map. exact HS.
  - unfold pnl. rewrite plot_pnl_heatmap_matrix. intros row Hin.
    apply in_map_iff in Hin. destruct Hin as (S & <- & _).
    rewrite length_map. exact Hsig.
  - intros i j Hi Hj. unfold pnl. rewrite plot_pnl_heatmap_matrix.
    rewrite (get_cell_map2
             (fun S sig => heatmap_price K T r option S sig - purchase_price)%num
             heatmap_S_vals heatmap_sigma_vals (lit 0%Q) (lit 0%Q)) by lia.
    unfold entry, heatmap_price, S_, sigma_.
    destruct (String.eqb option "call"); reflexivity.
  - reflexivity.
  - intros i j Hi Hj. unfold writes. rewrite heatmap_writes_list.
    unfold entry, heatmap_price, S_, sigma_.
    destruct (String.eqb option "call");
      (do 8 (destruct i as [| i];
             [do 8 (destruct j as [| j]; [reflexivity |]); lia |]);
       lia).
Qed.

Lemma plot_pnl_heatmap_grid_witness :
  get_cell (plot_pnl_heatmap (A := R) 100 1 (5 / 100) 10 "put") 3 5
  = Some (black_scholes_put (A := R) (650 / 7) 100 1 (5 / 100) (16 / 35) - 10)
  /\ get_cell (plot_pnl_heatmap (A := R) 100 1 (5 / 100) 10 "call") 7 0
     = Some (black_scholes_call (A := R) 150 100 1 (5 / 100) (1 / 10) - 10).
Proof.
  split.
  - destruct (@plot_pnl_heatmap_grid R R_numeric 100 1 (5 / 100) 10 "put")
      as (HS & Hsig & _ & _ & Hcell & _).
    rewrite (Hcell 3%nat 5%nat) by lia.
    rewrite (HS 3%nat), (Hsig 5%nat) by lia.
    cbn [String.eqb Ascii.eqb Bool.eqb Nat.eqb of_nat lit add sub mul div
         R_numeric Z.of_nat Pos.of_succ_nat Pos.succ inject_Z].
    do 3 f_equal; unfold inject_Z, Q2R; cbn [Qnum Qden]; lra.
  - destruct (@plot_pnl_heatmap_grid R R_numeric 100 1 (5 / 100) 10 "call")
      as (HS & Hsig & _ & _ & Hcell & _).
    rewrite (Hcell 7%nat 0%nat) by lia.
    rewrite (HS 7%nat), (Hsig 0%nat) by lia.
    cbn [String.eqb Ascii.eqb Bool.eqb Nat.eqb of_nat lit add sub mul div
         R_numeric Z.of_nat Pos.of_succ_nat Pos.succ inject_Z].
    do 3 f_equal; unfold inject_Z, Q2R; cbn [Qnum Qden]; lra.
Defined.

(** C8: for valid [S, K, T] and any [r], the call price tends to
    [max (S - K * exp (- r * T)) 0] as [sigma] tends to [0] from above
    (through [sigma > 0] only). *)
Theorem call_limit_zero_volatility :
  forall S K T r : R,
    0 < S -> 0 < K -> 0 < T ->
    forall eps : R, 0 < eps ->
    exists delta : R, 0 < delta /\
      forall sigma : R, 0 < sigma < delta ->
        Rabs (black_scholes_call S K T r sigma
              - Rmax (S - K * exp (- r * T)) 0) < eps.
Proof.
  intros S K T r HS HK HT eps Heps.
  set (P := K * exp (- r * T)).
  set (L := ln (S / K) + r * T).
  assert (HP : 0 < P) by (apply Rmult_lt_0_compat; [exact HK | apply exp_pos]).
  assert (HLn : L = ln S - ln P).
  { unfold L, P. rewrite (ln_quot HS HK), ln_mult, ln_exp;
      [ring | exact HK | apply exp_pos]. }
  assert (Hs : 0 < sqrt T) by (apply sqrt_lt_R0; exact HT).
  assert (Hss : sqrt T * sqrt T = T) by (apply sqrt_sqrt; lra).
  (* far from the money: v^2 small against |L| *)
  assert (Hfar : forall M : R, 0 < M -> M ^ 2 = L ^ 2 ->
    exists delta : R, 0 < delta /\
      forall sigma : R, 0 < sigma < delta ->
        (sigma * sqrt T) ^ 2 <= M
        /\ (S + P) * (8 * (sigma * sqrt T) ^ 2 / L ^ 2) < eps).
  { intros M HM HML.
    set (B := eps * M ^ 2 / (8 * (S + P))).
    assert (HB : 0 < B).
    { unfold B. apply Rdiv_lt_0_compat; [| lra].
      apply Rmult_lt_0_compat; [exact Heps | nra]. }
    exists (Rmin 1 (Rmin (M / T) (B / T))). split.
    - repeat apply Rmin_pos; try lra; apply Rdiv_lt_0_compat; assumption.
    - intros sigma [Hsig0 Hsig].
      assert (H1 : sigma < 1)
        by (eapply Rlt_le_trans; [exact Hsig | apply Rmin_l]).
      assert (H2 : sigma < M / T).
      { eapply Rlt_le_trans; [exact Hsig |].
        eapply Rle_trans; [apply Rmin_r | apply Rmin_l]. }
      assert (H3 : sigma < B / T).
      { eapply Rlt_le_trans; [exact Hsig |].
        eapply Rle_trans; [apply Rmin_r | apply Rmin_r]. }
      assert (H2' : sigma * T < M).
      { apply Rmult_lt_compat_r with (r := T) in H2; [| exact HT].
        unfold Rdiv in H2. rewrite Rmult_assoc, Rinv_l, Rmult_1_r in H2 by lra.
        exact H2. }
      assert (H3' : sigma * T < B).
      { apply Rmult_lt_compat_r with (r := T) in H3; [| exact HT].
        unfold Rdiv in H3. rewrite Rmult_assoc, Rinv_l, Rmult_1_r in H3 by lra.
        exact H3. }
      assert (Hv2 : (sigma * sqrt T) ^ 2 = sigma * sigma * T)
        by (rewrite <- Hss at 2; ring).
      assert (Hv3 : sigma * sigma * T <= sigma * T) by nra.
      split; [lra |].
      rewrite <- HML, Hv2.
      assert (HM2 : 0 < M ^ 2) by nra.
      apply Rmult_lt_reg_r with (M ^ 2 / (8 * (S + P)));
        [apply Rdiv_lt_0_compat; lra |].
      replace ((S + P) * (8 * (sigma * sigma * T) / M ^ 2)
               * (M ^ 2 / (8 * (S + P))))
        with (sigma * sigma * T) by (field; split; lra).
      fold B. replace (eps * (M ^ 2 / (8 * (S + P)))) with B
        by (unfold B; field; lra).
      lra. }
  destruct (total_order_T L 0) as [[Hneg | Hzero] | Hpos].
  - (* out of the money: S < P *)
    assert (HSP : S < P).
    { apply ln_lt_inv; try assumption. lra. }
    destruct (Hfar (- L)) as (delta & Hdelta & Hd); [lra | ring |].
    exists delta. split; [exact Hdelta |].
    intros sigma Hsig. destruct (Hd sigma Hsig) as [Hv Hb].
    rewrite (black_scholes_call_moneyness S K r HT (proj1 Hsig)).
    fold P L. rewrite Rmax_right by lra. rewrite Rminus_0_r.
    eapply Rle_lt_trans; [| exact Hb].
    apply call_near_out_of_the_money; try assumption.
    apply Rmult_lt_0_compat; [apply Hsig | exact Hs].
  - (* at the money: S = P *)
    assert (HSP : S = P).
    { apply ln_inv; try assumption. lra. }
    exists (eps / (S * sqrt T)). split.
    + apply Rdiv_lt_0_compat; [exact Heps | nra].
    + intros sigma [Hsig0 Hsig].
      rewrite (black_scholes_call_moneyness S K r HT Hsig0).
      fold P L. rewrite Hzero, <- HSP.
      rewrite Rmax_right by lra. rewrite Rminus_0_r.
      set (v := sigma * sqrt T).
      assert (Hv : 0 < v) by (unfold v; nra).
      replace (0 / v + v / 2) with (v / 2) by (field; lra).
      replace (0 / v - v / 2) with (- (v / 2)) by (field; lra).
      eapply Rle_lt_trans; [apply call_near_at_the_money; assumption |].
      apply Rmult_lt_compat_r with (r := S * sqrt T) in Hsig; [| nra].
      unfold Rdiv in Hsig.
      rewrite Rmult_assoc, Rinv_l, Rmult_1_r in Hsig by nra.
      unfold v. lra.
  - (* in the money: P < S *)
    assert (HSP : P < S).
    { apply ln_lt_inv; try assumption. lra. }
    destruct (Hfar L) as (delta & Hdelta & Hd); [lra | ring |].
    exists delta. split; [exact Hdelta |].
    intros sigma Hsig. destruct (Hd sigma Hsig) as [Hv Hb].
    rewrite (black_scholes_call_moneyness S K r HT (proj1 Hsig)).
    fold P L. rewrite Rmax_left by lra.
    eapply Rle_lt_trans; [| exact Hb].
    apply call_near_in_the_money; try assumption.
    apply Rmult_lt_0_compat; [apply Hsig | exact Hs].
Qed.

Lemma call_limit_zero_volatility_witness :
  exists delta : R, 0 < delta /\
    forall sigma : R, 0 < sigma < delta ->
      Rabs (black_scholes_call 100 100 1 (5 / 100) sigma
            - Rmax (100 - 100 * exp (- (5 / 100) * 1)) 0) < 1 / 100.
Proof. apply call_limit_zero_volatility; lra. Defined.

(** C9: [plot_greek_curve] walks 100 spot prices, linearly spaced from
    50 to 150, and for each of the five Greek names of the drop-down it
    collects exactly one value per spot price, the named component of
    [option_greeks] there: a curve of 100 points. *)
Theorem plot_greek_curve_points :
  forall (A : Type) (N : Numeric A) (K T r sigma : A) (option : string),
    List.length (curve_S_vals (A := A)) = 100%nat
    /\ (forall k : nat, (k < 100)%nat ->
          nth_error (curve_S_vals (A := A)) k
          = Some (if Nat.eqb k 99 then lit 150%Q
                  else of_nat k * ((lit 150%Q - lit 50%Q) / of_nat 99)
                       + lit 50%Q)%num)
    /\ plot_greek_curve K T r sigma "Delta" option
       = map (fun S => Delta (option_greeks S K T r sigma option)) curve_S_vals
    /\ plot_greek_curve K T r sigma "Gamma" option
       = map (fun S => Gamma (option_greeks S K T r sigma option)) curve_S_vals
    /\ plot_greek_curve K T r sigma "Vega" option
       = map (fun S => Vega (option_greeks S K T r sigma option)) curve_S_vals
    /\ plot_greek_curve K T r sigma "Theta" option
       = map (fun S => Theta (option_greeks S K T r sigma option)) curve_S_vals
    /\ plot_greek_curve K T r sigma "Rho" option
       = map (fun S => Rho (option_greeks S K T r sigma option)) curve_S_vals
    /\ (forall greek : string, In greek greek_choices ->
          List.length (plot_greek_curve K T r sigma greek option) = 100%nat).
Proof.
  intros A N K T r sigma option.
  assert (Hlen : List.length (curve_S_vals (A := A)) = 100%nat)
    by apply linspace_length.
  assert (HD : plot_greek_curve K T r sigma "Delta" option
          = map (fun S => Delta (option_greeks S K T r sigma option))
                curve_S_vals)
    by (unfold plot_greek_curve, curve_step; simpl String.eqb;
        apply (fold_left_app_one _ _ [])).
  assert (HG : plot_greek_curve K T r sigma "Gamma" option
          = map (fun S => Gamma (option_greeks S K T r sigma option))
                curve_S_vals)
    by (unfold plot_greek_curve, curve_step; simpl String.eqb;
        apply (fold_left_app_one _ _ [])).
  assert (HV : plot_greek_curve K T r sigma "Vega" option
          = map (fun S => Vega (option_greeks S K T r sigma option))
                curve_S_vals)
    by (unfold plot_greek_curve, curve_step; simpl String.eqb;
        apply (fold_left_app_one _ _ [])).
  assert (HT : plot_greek_curve K T r sigma "Theta" option
          = map (fun S => Theta (option_greeks S K T r sigma option))
                curve_S_vals)
    by (unfold plot_greek_curve, curve_step; simpl String.eqb;
        apply (fold_left_app_one _ _ [])).
  assert (HR : plot_greek_curve K T r sigma "Rho" option
          = map (fun S => Rho (option_greeks S K T r sigma option))
                curve_S_vals)
    by (unfold plot_greek_curve, curve_step; simpl String.eqb;
        apply (fold_left_app_one _ _ [])).
  repeat split; try assumption.
  - intros k Hk. unfold curve_S_vals.
    rewrite linspace_nth_error by lia. reflexivity.
  - intros greek Hin. simpl in Hin.
    destruct Hin as [<- | [<- | [<- | [<- | [<- | []]]]]];
      [rewrite HD | rewrite HG | rewrite HV | rewrite HT | rewrite HR];
      now rewrite length_map.
Qed.

Lemma plot_greek_curve_points_witness :
  List.length (plot_greek_curve (A := R) 100 1 0.05 0.2 "Vega" "Call")
  = 100%nat
  /\ nth_error (curve_S_vals (A := R)) 99 = Some (lit 150%Q).
Proof.
  destruct (@plot_greek_curve_points R R_numeric 100 1 0.05 0.2 "Call")
    as (_ & Hnth & _ & _ & _ & _ & _ & Hlen).
  split.
  - apply Hlen. simpl. auto.
  - rewrite Hnth by lia. reflexivity.
Defined.

(** C10: the Gamma and the Vega that [option_greeks] returns do not
    depend on the [option] argument: for all inputs and any two option
    strings the two Gammas are equal and the two Vegas are equal. *)
Theorem option_greeks_gamma_vega_independent :
  forall (A : Type) (N : Numeric A) (S K T r sigma : A) (o1 o2 : string),
    Gamma (option_greeks S K T r sigma o1)
      = Gamma (option_greeks S K T r sigma o2)
    /\ Vega (option_greeks S K T r sigma o1)
      = Vega (option_greeks S K T r sigma o2).
Proof.
  intros A N S K T r sigma o1 o2.
  unfold option_greeks.
  destruct (String.eqb o1 "call"), (String.eqb o2 "call"); split; reflexivity.
Qed.


(** * Further properties of the code *)

(** ** The Greeks as derivatives of the prices *)

(** [d1] of the three functions, over the reals. *)
Definition d1_R (S K T r sigma : R) : R :=
  (ln (S / K) + (r + 1 / 2 * sigma ^ 2) * T) / (sigma * sqrt T).

Lemma black_scholes_call_d1 (S K T r sigma : R) :
  black_scholes_call S K T r sigma
  = S * norm_cdf_R (d1_R S K T r sigma)
    - K * exp (- r * T) * norm_cdf_R (d1_R S K T r sigma - sigma * sqrt T).
Proof.
  unfold black_scholes_call, d1_R. real_ops. rewrite lit_half. reflexivity.
Qed.

Lemma black_scholes_put_call (S K T r sigma : R) :
  black_scholes_put S K T r sigma
  = black_scholes_call S K T r sigma - S + K * exp (- r * T).
Proof. pose proof (call_minus_put S K T r sigma). lra. Qed.

Lemma d1_R_log (S K T r sigma : R) :
  0 < S -> 0 < K -> d1_R S K T r sigma = d1_log K T r sigma (ln S).
Proof.
  intros HS HK. unfold d1_R, d1_log. rewrite (ln_quot HS HK). reflexivity.
Qed.

(** [S * pdf(d1) = K * exp(-r T) * pdf(d2)]. *)
Lemma pdf_identity (S K T r sigma : R) :
  0 < S -> 0 < K -> 0 < T -> 0 < sigma ->
  S * norm_pdf_R (d1_R S K T r sigma)
  = K * exp (- r * T) * norm_pdf_R (d1_R S K T r sigma - sigma * sqrt T).
Proof.
  intros HS HK HT Hsig. rewrite (d1_R_log T r sigma HS HK).
  rewrite (pdf_d1_d2 r HK HT Hsig (ln S)), (exp_ln S HS). reflexivity.
Qed.

(** The derivative of [s * cdf(d) - p * cdf(d - w)] at a point where
    [s * pdf(d) = p * pdf(d - w)]: the terms in the derivative of [d]
    cancel. *)
Lemma price_form_derivable (s p d w : R -> R) (x s' p' d' w' : R) :
  derivable_pt_lim s x s' -> derivable_pt_lim p x p' ->
  derivable_pt_lim d x d' -> derivable_pt_lim w x w' ->
  s x * norm_pdf_R (d x) = p x * norm_pdf_R (d x - w x) ->
  derivable_pt_lim
    (fun y => s y * norm_cdf_R (d y) - p y * norm_cdf_R (d y - w y)) x
    (s' * norm_cdf_R (d x) - p' * norm_cdf_R (d x - w x)
     + s x * norm_pdf_R (d x) * w').
Proof.
  intros Hs Hp Hd Hw Hid.
  eapply derivable_pt_lim_eq.
  - apply (derivable_pt_lim_minus (fun y => s y * norm_cdf_R (d y))
             (fun y => p y * norm_cdf_R (d y - w y))).
    + apply (derivable_pt_lim_mult s (fun y => norm_cdf_R (d y))).
      * exact Hs.
      * apply (derivable_pt_lim_comp d norm_cdf_R);
          [exact Hd | apply norm_cdf_R_derivable].
    + apply (derivable_pt_lim_mult p (fun y => norm_cdf_R (d y - w y))).
      * exact Hp.
      * apply (derivable_pt_lim_comp (fun y => d y - w y) norm_cdf_R).
        -- apply (derivable_pt_lim_minus d w); [exact Hd | exact Hw].
        -- apply norm_cdf_R_derivable.
  - set (a := norm_pdf_R (d x)) in *.
    set (b := norm_pdf_R (d x - w x)) in *.
    replace (s' * norm_cdf_R (d x) - p' * norm_cdf_R (d x - w x)
             + s x * a * w')
      with (s' * norm_cdf_R (d x) - p' * norm_cdf_R (d x - w x)
            + (s x * a - p x * b) * d' + p x * b * w')
      by (rewrite Hid; ring).
    ring.
Qed.

(** Derivatives of [d1] in each of its arguments. *)
Lemma d1_R_derivable_S (S K T r sigma : R) :
  0 < S -> 0 < K -> 0 < T -> 0 < sigma ->
  derivable_pt_lim (fun s => d1_R s K T r sigma) S (/ (S * (sigma * sqrt T))).
Proof.
  intros HS HK HT Hsig. unfold d1_R.
  assert (Hq : 0 < S / K) by (apply Rdiv_lt_0_compat; assumption).
  assert (Hv : 0 < sigma * sqrt T)
    by (apply Rmult_lt_0_compat; [exact Hsig | apply sqrt_lt_R0, HT]).
  assert (Hln : derivable_pt_lim (fun s => ln (s / K)) S (/ S)).
  { eapply derivable_pt_lim_eq.
    - apply (derivable_pt_lim_comp (fun s => s / K) ln).
      + apply (@derivable_pt_lim_div_scal id S 1 K), derivable_pt_lim_id.
      + apply derivable_pt_lim_ln. exact Hq.
    - field. split; lra. }
  eapply derivable_pt_lim_eq.
  - apply derivable_pt_lim_div_scal
      with (f := fun s => ln (s / K) + (r + 1 / 2 * sigma ^ 2) * T).
    apply (derivable_pt_lim_plus (fun s => ln (s / K))
             (fun _ => (r + 1 / 2 * sigma ^ 2) * T)).
    + exact Hln.
    + apply derivable_pt_lim_const.
  - assert (Hs : 0 < sqrt T) by (apply sqrt_lt_R0, HT). field. repeat split; lra.
Qed.

Lemma d1_R_derivable_r (S K T r sigma : R) :
  derivable_pt_lim (fun x => d1_R S K T x sigma) r (T / (sigma * sqrt T)).
Proof.
  unfold d1_R.
  eapply derivable_pt_lim_eq; [deriv_rules | unfold Rdiv; ring].
Qed.

Lemma d1_R_derivable_sigma (S K T r sigma : R) :
  0 < T -> 0 < sigma ->
  exists l : R, derivable_pt_lim (fun x => d1_R S K T r x) sigma l.
Proof.
  intros HT Hsig. unfold d1_R.
  assert (Hv : 0 < sigma * sqrt T)
    by (apply Rmult_lt_0_compat; [exact Hsig | apply sqrt_lt_R0, HT]).
  eexists.
  apply (derivable_pt_lim_div
           (fun x => ln (S / K) + (r + 1 / 2 * x ^ 2) * T)
           (fun x => x * sqrt T)).
  - deriv_rules.
  - deriv_rules.
  - lra.
Qed.

Lemma sqrt_derivable (T : R) :
  0 < T -> derivable_pt_lim sqrt T (/ (2 * sqrt T)).
Proof. intros HT. apply derivable_pt_lim_sqrt. exact HT. Qed.

Lemma d1_R_derivable_T (S K T r sigma : R) :
  0 < T -> 0 < sigma ->
  exists l : R, derivable_pt_lim (fun x => d1_R S K x r sigma) T l.
Proof.
  intros HT Hsig. unfold d1_R.
  assert (Hv : 0 < sigma * sqrt T)
    by (apply Rmult_lt_0_compat; [exact Hsig | apply sqrt_lt_R0, HT]).
  eexists.
  apply (derivable_pt_lim_div
           (fun x => ln (S / K) + (r + 1 / 2 * sigma ^ 2) * x)
           (fun x => sigma * sqrt x)).
  - deriv_rules.
  - apply (derivable_pt_lim_mult (fun _ => sigma) sqrt).
    + apply derivable_pt_lim_const.
    + apply sqrt_derivable. exact HT.
  - lra.
Qed.

Lemma lit_2 : Q2R 2 = 2.
Proof. unfold Q2R; simpl; field. Qed.

(** The values [option_greeks] returns, over the reals, in terms of
    [d1_R]. *)
Lemma option_greeks_call_R (S K T r sigma : R) :
  let d1 := d1_R S K T r sigma in
  let d2 := d1 - sigma * sqrt T in
  option_greeks S K T r sigma "call"
  = mkGreeks (norm_cdf_R d1)
      (norm_pdf_R d1 / (S * sigma * sqrt T))
      (S * norm_pdf_R d1 * sqrt T)
      (- (S * norm_pdf_R d1 * sigma) / (2 * sqrt T)
       - r * K * exp (- r * T) * norm_cdf_R d2)
      (K * T * exp (- r * T) * norm_cdf_R d2).
Proof.
  unfold option_greeks, d1_R. simpl String.eqb. real_ops.
  rewrite lit_half, lit_2. reflexivity.
Qed.

Lemma option_greeks_put_R (S K T r sigma : R) (option : string) :
  option <> "call"%string ->
  let d1 := d1_R S K T r sigma in
  let d2 := d1 - sigma * sqrt T in
  option_greeks S K T r sigma option
  = mkGreeks (norm_cdf_R d1 - 1)
      (norm_pdf_R d1 / (S * sigma * sqrt T))
      (S * norm_pdf_R d1 * sqrt T)
      (- (S * norm_pdf_R d1 * sigma) / (2 * sqrt T)
       + r * K * exp (- r * T) * norm_cdf_R (- d2))
      (- K * T * exp (- r * T) * norm_cdf_R (- d2)).
Proof.
  intros Hne. apply String.eqb_neq in Hne.
  unfold option_greeks, d1_R. rewrite Hne. real_ops.
  rewrite lit_half, lit_2, lit_1. reflexivity.
Qed.

Lemma put_not_call : ("put" <> "call")%string.
Proof. discriminate. Qed.

(** Differentiating the put through the call: [put = call - S + K exp(-rT)]. *)
Lemma put_derivable_from_call (call s p : R -> R) (put : R -> R)
    (x c' s' p' : R) :
  (forall y, put y = call y - s y + p y) ->
  derivable_pt_lim call x c' -> derivable_pt_lim s x s' ->
  derivable_pt_lim p x p' ->
  derivable_pt_lim put x (c' - s' + p').
Proof.
  intros Hput Hc Hs Hp.
  apply derivable_pt_lim_ext with (f := fun y => call y - s y + p y).
  - intros y. symmetry. apply Hput.
  - apply (derivable_pt_lim_plus (fun y => call y - s y) p); [| exact Hp].
    apply (derivable_pt_lim_minus call s); assumption.
Qed.

Section GreeksAsDerivatives.

Variables S K T r sigma : R.
Hypothesis HS : 0 < S.
Hypothesis HK : 0 < K.
Hypothesis HT : 0 < T.
Hypothesis Hsig : 0 < sigma.

Let d1 : R := d1_R S K T r sigma.
Let d2 : R := d1 - sigma * sqrt T.

Lemma call_derivable_S :
  derivable_pt_lim (fun s => black_scholes_call s K T r sigma) S
    (norm_cdf_R d1).
Proof.
  apply derivable_pt_lim_ext
    with (f := fun s => id s * norm_cdf_R (d1_R s K T r sigma)
                        - (fun _ => K * exp (- r * T)) s
                          * norm_cdf_R (d1_R s K T r sigma
                                        - (fun _ => sigma * sqrt T) s)).
  - intros s. symmetry. apply black_scholes_call_d1.
  - eapply derivable_pt_lim_eq.
    + eapply (price_form_derivable (s := id)
               (p := fun _ => K * exp (- r * T))
               (d := fun s => d1_R s K T r sigma)
               (w := fun _ => sigma * sqrt T)).
      * apply derivable_pt_lim_id.
      * apply derivable_pt_lim_const.
      * apply d1_R_derivable_S; assumption.
      * apply derivable_pt_lim_const.
      * apply pdf_identity; assumption.
    + unfold d1. ring.
Qed.

Lemma call_derivable_sigma :
  derivable_pt_lim (fun x => black_scholes_call S K T r x) sigma
    (S * norm_pdf_R d1 * sqrt T).
Proof.
  destruct (d1_R_derivable_sigma S K r HT Hsig) as [l Hl].
  apply derivable_pt_lim_ext
    with (f := fun x => (fun _ => S) x * norm_cdf_R (d1_R S K T r x)
                        - (fun _ => K * exp (- r * T)) x
                          * norm_cdf_R (d1_R S K T r x
                                        - (fun x => x * sqrt T) x)).
  - intros x. symmetry. apply black_scholes_call_d1.
  - eapply derivable_pt_lim_eq.
    + eapply (price_form_derivable (s := fun _ => S)
               (p := fun _ => K * exp (- r * T))
               (d := fun x => d1_R S K T r x)
               (w := fun x => x * sqrt T)).
      * apply derivable_pt_lim_const.
      * apply derivable_pt_lim_const.
      * exact Hl.
      * deriv_rules.
      * apply pdf_identity; assumption.
    + unfold d1. ring.
Qed.

Lemma call_derivable_r :
  derivable_pt_lim (fun x => black_scholes_call S K T x sigma) r
    (K * T * exp (- r * T) * norm_cdf_R d2).
Proof.
  apply derivable_pt_lim_ext
    with (f := fun x => (fun _ => S) x * norm_cdf_R (d1_R S K T x sigma)
                        - (fun x => K * exp (- x * T)) x
                          * norm_cdf_R (d1_R S K T x sigma
                                        - (fun _ => sigma * sqrt T) x)).
  - intros x. symmetry. apply black_scholes_call_d1.
  - eapply derivable_pt_lim_eq.
    + eapply (price_form_derivable (s := fun _ => S)
               (p := fun x => K * exp (- x * T))
               (d := fun x => d1_R S K T x sigma)
               (w := fun _ => sigma * sqrt T)).
      * apply derivable_pt_lim_const.
      * deriv_rules.
      * apply d1_R_derivable_r.
      * apply derivable_pt_lim_const.
      * apply pdf_identity; assumption.
    + unfold d2, d1. ring.
Qed.

Lemma call_derivable_T :
  derivable_pt_lim (fun x => black_scholes_call S K x r sigma) T
    (S * norm_pdf_R d1 * sigma / (2 * sqrt T)
     + r * K * exp (- r * T) * norm_cdf_R d2).
Proof.
  destruct (d1_R_derivable_T S K r HT Hsig) as [l Hl].
  assert (Hs : 0 < sqrt T) by (apply sqrt_lt_R0, HT).
  apply derivable_pt_lim_ext
    with (f := fun x => (fun _ => S) x * norm_cdf_R (d1_R S K x r sigma)
                        - (fun x => K * exp (- r * x)) x
                          * norm_cdf_R (d1_R S K x r sigma
                                        - (fun x => sigma * sqrt x) x)).
  - intros x. symmetry. apply black_scholes_call_d1.
  - eapply derivable_pt_lim_eq.
    + eapply (price_form_derivable (s := fun _ => S)
               (p := fun x => K * exp (- r * x))
               (d := fun x => d1_R S K x r sigma)
               (w := fun x => sigma * sqrt x)).
      * apply derivable_pt_lim_const.
      * deriv_rules.
      * exact Hl.
      * apply (derivable_pt_lim_mult (fun _ => sigma) sqrt).
        -- apply derivable_pt_lim_const.
        -- apply sqrt_derivable. exact HT.
      * apply pdf_identity; assumption.
    + unfold d2, d1. field. lra.
Qed.

End GreeksAsDerivatives.

(** X1: for valid inputs the Delta that [option_greeks] returns is the
    derivative of the price in the spot [S]: of [black_scholes_call] for
    a call, of [black_scholes_put] for a put. *)
Theorem delta_is_spot_derivative :
  forall S K T r sigma : R,
    0 < S -> 0 < K -> 0 < T -> 0 < sigma ->
    derivable_pt_lim (fun s => black_scholes_call s K T r sigma) S
      (Delta (option_greeks S K T r sigma "call"))
    /\ derivable_pt_lim (fun s => black_scholes_put s K T r sigma) S
         (Delta (option_greeks S K T r sigma "put")).
Proof.
  intros S K T r sigma HS HK HT Hsig.
  rewrite option_greeks_call_R, (option_greeks_put_R _ _ _ _ _ put_not_call).
  cbn [Delta].
  pose proof (call_derivable_S r HS HK HT Hsig) as Hc.
  split; [exact Hc |].
  eapply derivable_pt_lim_eq.
  - apply (put_derivable_from_call
             (call := fun s => black_scholes_call s K T r sigma)
             (s := id) (p := fun _ => K * exp (- r * T))).
    + intros y. apply black_scholes_put_call.
    + exact Hc.
    + apply derivable_pt_lim_id.
    + apply derivable_pt_lim_const.
  - ring.
Qed.

Lemma delta_is_spot_derivative_witness :
  derivable_pt_lim (fun s => black_scholes_call s 100 1 0.05 0.2) 100
    (Delta (option_greeks 100 100 1 0.05 0.2 "call")).
Proof. apply delta_is_spot_derivative; lra. Defined.

(** X2: for valid inputs the Gamma that [option_greeks] returns is the
    derivative of its Delta in the spot [S], for every option string. *)
Theorem gamma_is_delta_derivative :
  forall (S K T r sigma : R) (option : string),
    0 < S -> 0 < K -> 0 < T -> 0 < sigma ->
    derivable_pt_lim (fun s => Delta (option_greeks s K T r sigma option)) S
      (Gamma (option_greeks S K T r sigma option)).
Proof.
  intros S K T r sigma option HS HK HT Hsig.
  assert (Hs : 0 < sqrt T) by (apply sqrt_lt_R0, HT).
  assert (Hd : derivable_pt_lim (fun s => norm_cdf_R (d1_R s K T r sigma)) S
                 (norm_pdf_R (d1_R S K T r sigma) / (S * sigma * sqrt T))).
  { eapply derivable_pt_lim_eq.
    - apply (derivable_pt_lim_comp (fun s => d1_R s K T r sigma) norm_cdf_R).
      + apply d1_R_derivable_S; assumption.
      + apply norm_cdf_R_derivable.
    - field. repeat split; lra. }
  destruct (string_dec option "call") as [-> | Hne].
  - rewrite option_greeks_call_R. cbn [Gamma].
    apply derivable_pt_lim_ext
      with (f := fun s => norm_cdf_R (d1_R s K T r sigma)); [| exact Hd].
    intros s. rewrite option_greeks_call_R. reflexivity.
  - rewrite (option_greeks_put_R _ _ _ _ _ Hne). cbn [Gamma].
    apply derivable_pt_lim_ext
      with (f := fun s => norm_cdf_R (d1_R s K T r sigma) - 1).
    + intros s. rewrite (option_greeks_put_R _ _ _ _ _ Hne). reflexivity.
    + eapply derivable_pt_lim_eq.
      * apply (derivable_pt_lim_minus
                 (fun s => norm_cdf_R (d1_R s K T r sigma)) (fun _ => 1)).
        -- exact Hd.
        -- apply derivable_pt_lim_const.
      * ring.
Qed.

Lemma gamma_is_delta_derivative_witness :
  derivable_pt_lim (fun s => Delta (option_greeks s 100 1 0.05 0.2 "Put")) 100
    (Gamma (option_greeks 100 100 1 0.05 0.2 "Put")).
Proof. apply gamma_is_delta_derivative; lra. Defined.

(** X3: for valid inputs the Vega that [option_greeks] returns, the same
    for every option string, is the derivative in the volatility [sigma]
    of the call price and of the put price. *)
Theorem vega_is_volatility_derivative :
  forall (S K T r sigma : R) (option : string),
    0 < S -> 0 < K -> 0 < T -> 0 < sigma ->
    derivable_pt_lim (fun x => black_scholes_call S K T r x) sigma
      (Vega (option_greeks S K T r sigma option))
    /\ derivable_pt_lim (fun x => black_scholes_put S K T r x) sigma
         (Vega (option_greeks S K T r sigma option)).
Proof.
  intros S K T r sigma option HS HK HT Hsig.
  assert (HV : Vega (option_greeks S K T r sigma option)
               = S * norm_pdf_R (d1_R S K T r sigma) * sqrt T).
  { destruct (string_dec option "call") as [-> | Hne].
    - rewrite option_greeks_call_R. reflexivity.
    - rewrite (option_greeks_put_R _ _ _ _ _ Hne). reflexivity. }
  rewrite HV.
  pose proof (call_derivable_sigma r HS HK HT Hsig) as Hc.
  split; [exact Hc |].
  eapply derivable_pt_lim_eq.
  - apply (put_derivable_from_call
             (call := fun x => black_scholes_call S K T r x)
             (s := fun _ => S) (p := fun _ => K * exp (- r * T))).
    + intros y. apply black_scholes_put_call.
    + exact Hc.
    + apply derivable_pt_lim_const.
    + apply derivable_pt_lim_const.
  - ring.
Qed.

Lemma vega_is_volatility_derivative_witness :
  derivable_pt_lim (fun x => black_scholes_put 100 100 1 0.05 x) 0.2
    (Vega (option_greeks 100 100 1 0.05 0.2 "Put")).
Proof. apply vega_is_volatility_derivative; lra. Defined.

(** X4: for valid inputs the Rho that [option_greeks] returns is the
    derivative of the price in the rate [r]: of [black_scholes_call] for
    a call, of [black_scholes_put] for a put. *)
Theorem rho_is_rate_derivative :
  forall S K T r sigma : R,
    0 < S -> 0 < K -> 0 < T -> 0 < sigma ->
    derivable_pt_lim (fun x => black_scholes_call S K T x sigma) r
      (Rho (option_greeks S K T r sigma "call"))
    /\ derivable_pt_lim (fun x => black_scholes_put S K T x sigma) r
         (Rho (option_greeks S K T r sigma "put")).
Proof.
  intros S K T r sigma HS HK HT Hsig.
  rewrite option_greeks_call_R, (option_greeks_put_R _ _ _ _ _ put_not_call).
  cbn [Rho].
  pose proof (call_derivable_r r HS HK HT Hsig) as Hc.
  split; [exact Hc |].
  eapply derivable_pt_lim_eq.
  - apply (put_derivable_from_call
             (call := fun x => black_scholes_call S K T x sigma)
             (s := fun _ => S) (p := fun x => K * exp (- x * T))).
    + intros y. apply black_scholes_put_call.
    + exact Hc.
    + apply derivable_pt_lim_const.
    + deriv_rules.
  - rewrite norm_cdf_R_opp. ring.
Qed.

Lemma rho_is_rate_derivative_witness :
  derivable_pt_lim (fun x => black_scholes_call 100 100 1 x 0.2) 0.05
    (Rho (option_greeks 100 100 1 0.05 0.2 "call")).
Proof. apply rho_is_rate_derivative; lra. Defined.

(** X5: for valid inputs the Theta that [option_greeks] returns is minus
    the derivative of the price in the time to maturity [T] (the decay
    of the price as the maturity comes closer), for a call and for a
    put. *)
Theorem theta_is_minus_maturity_derivative :
  forall S K T r sigma : R,
    0 < S -> 0 < K -> 0 < T -> 0 < sigma ->
    derivable_pt_lim (fun x => black_scholes_call S K x r sigma) T
      (- Theta (option_greeks S K T r sigma "call"))
    /\ derivable_pt_lim (fun x => black_scholes_put S K x r sigma) T
         (- Theta (option_greeks S K T r sigma "put")).
Proof.
  intros S K T r sigma HS HK HT Hsig.
  assert (Hs : 0 < sqrt T) by (apply sqrt_lt_R0, HT).
  rewrite option_greeks_call_R, (option_greeks_put_R _ _ _ _ _ put_not_call).
  cbn [Theta].
  pose proof (call_derivable_T r HS HK HT Hsig) as Hc.
  split.
  - eapply derivable_pt_lim_eq; [exact Hc |]. field. lra.
  - eapply derivable_pt_lim_eq.
    + apply (put_derivable_from_call
               (call := fun x => black_scholes_call S K x r sigma)
               (s := fun _ => S) (p := fun x => K * exp (- r * x))).
      * intros y. apply black_scholes_put_call.
      * exact Hc.
      * apply derivable_pt_lim_const.
      * deriv_rules.
    + rewrite norm_cdf_R_opp. field. lra.
Qed.

Lemma theta_is_minus_maturity_derivative_witness :
  derivable_pt_lim (fun x => black_scholes_call 100 100 x 0.05 0.2) 1
    (- Theta (option_greeks 100 100 1 0.05 0.2 "call")).
Proof. apply theta_is_minus_maturity_derivative; lra. Defined.


(** X6: signs of the other Greeks on valid inputs: Vega is never
    negative, for every option string; Rho is never negative for a call
    and never positive for a put; and the Theta of a call is never
    positive when the rate is not negative. *)
Theorem greeks_signs :
  forall S K T r sigma : R,
    0 < S -> 0 < K -> 0 < T -> 0 < sigma ->
    (forall option : string, 0 <= Vega (option_greeks S K T r sigma option))
    /\ 0 <= Rho (option_greeks S K T r sigma "call")
    /\ Rho (option_greeks S K T r sigma "put") <= 0
    /\ (0 <= r -> Theta (option_greeks S K T r sigma "call") <= 0).
Proof.
  intros S K T r sigma HS HK HT Hsig.
  assert (Hs : 0 < sqrt T) by (apply sqrt_lt_R0, HT).
  set (d1 := d1_R S K T r sigma).
  pose proof (norm_pdf_R_pos d1) as Hpdf.
  pose proof (norm_cdf_R_bounds (d1 - sigma * sqrt T)) as Hc2.
  pose proof (norm_cdf_R_bounds (- (d1 - sigma * sqrt T))) as Hc2'.
  pose proof (exp_pos (- r * T)) as He.
  assert (HKe : 0 < K * exp (- r * T)) by (apply Rmult_lt_0_compat; assumption).
  assert (HV : 0 <= S * norm_pdf_R d1 * sqrt T).
  { left. apply Rmult_lt_0_compat; [apply Rmult_lt_0_compat |]; assumption. }
  split; [| split; [| split]].
  - intros option. destruct (string_dec option "call") as [-> | Hne].
    + rewrite option_greeks_call_R. exact HV.
    + rewrite (option_greeks_put_R _ _ _ _ _ Hne). exact HV.
  - rewrite option_greeks_call_R. cbn [Rho]. fold d1.
    replace (K * T * exp (- r * T)) with (T * (K * exp (- r * T))) by ring.
    left. repeat apply Rmult_lt_0_compat; lra.
  - rewrite (option_greeks_put_R _ _ _ _ _ put_not_call). cbn [Rho]. fold d1.
    replace (- K * T * exp (- r * T) * norm_cdf_R (- (d1 - sigma * sqrt T)))
      with (- (T * (K * exp (- r * T))
               * norm_cdf_R (- (d1 - sigma * sqrt T)))) by ring.
    left. apply Ropp_lt_gt_0_contravar, Rlt_gt.
    repeat apply Rmult_lt_0_compat; lra.
  - intros Hr. rewrite option_greeks_call_R. cbn [Theta]. fold d1.
    assert (H1 : 0 < S * norm_pdf_R d1 * sigma / (2 * sqrt T)).
    { apply Rdiv_lt_0_compat; [| lra].
      apply Rmult_lt_0_compat; [apply Rmult_lt_0_compat |]; assumption. }
    assert (H2 : 0 <= r * K * exp (- r * T)
                      * norm_cdf_R (d1 - sigma * sqrt T)).
    { replace (r * K * exp (- r * T)) with (r * (K * exp (- r * T))) by ring.
      apply Rmult_le_pos; [| lra]. apply Rmult_le_pos; lra. }
    replace (- (S * norm_pdf_R d1 * sigma) / (2 * sqrt T))
      with (- (S * norm_pdf_R d1 * sigma / (2 * sqrt T)))
      by (field; lra).
    lra.
Qed.

Lemma greeks_signs_witness :
  0 <= Vega (option_greeks 100 100 1 0.05 0.2 "Call")
  /\ Rho (option_greeks 100 100 1 0.05 0.2 "put") <= 0
  /\ Theta (option_greeks 100 100 1 0.05 0.2 "call") <= 0.
Proof.
  destruct (@greeks_signs 100 100 1 0.05 0.2) as (HV & _ & HR & HT);
    [lra | lra | lra | lra |].
  split; [apply HV | split; [exact HR | apply HT; lra]].
Defined.

(** X7: call-put relations between the values of [option_greeks] on
    valid inputs: the Deltas differ by 1, the Thetas by
    [- r K exp(-rT)] and the Rhos by [K T exp(-rT)]. *)
Theorem greeks_call_put_relations :
  forall S K T r sigma : R,
    0 < S -> 0 < K -> 0 < T -> 0 < sigma ->
    let c := option_greeks S K T r sigma "call" in
    let p := option_greeks S K T r sigma "put" in
    Delta c - Delta p = 1
    /\ Theta c - Theta p = - r * K * exp (- r * T)
    /\ Rho c - Rho p = K * T * exp (- r * T).
Proof.
  intros S K T r sigma _ _ _ _ c p. unfold c, p.
  rewrite option_greeks_call_R, (option_greeks_put_R _ _ _ _ _ put_not_call).
  cbn [Delta Theta Rho]. rewrite norm_cdf_R_opp.
  repeat split; ring.
Qed.

Lemma greeks_call_put_relations_witness :
  Delta (option_greeks 100 100 1 0.05 0.2 "call")
  - Delta (option_greeks 100 100 1 0.05 0.2 "put") = 1
  /\ Rho (option_greeks 100 100 1 0.05 0.2 "call")
     - Rho (option_greeks 100 100 1 0.05 0.2 "put")
     = 100 * 1 * exp (- (0.05) * 1).
Proof.
  destruct (@greeks_call_put_relations 100 100 1 0.05 0.2)
    as (HD & _ & HR); [lra | lra | lra | lra |].
  split; [exact HD | exact HR].
Defined.

(** Strict monotonicity in the spot. *)
Lemma prices_strictly_monotone_in_spot (K T r sigma S1 S2 : R) :
  0 < K -> 0 < T -> 0 < sigma -> 0 < S1 -> S1 < S2 ->
  black_scholes_call S1 K T r sigma < black_scholes_call S2 K T r sigma
  /\ black_scholes_put S2 K T r sigma < black_scholes_put S1 K T r sigma.
Proof.
  intros HK HT Hsig HS1 Hlt.
  assert (HS2 : 0 < S2) by lra.
  pose proof (ln_increasing S1 S2 HS1 Hlt) as Hln.
  pose proof (call_log_increasing r HK HT Hsig Hln) as Hc.
  pose proof (spot_minus_call_log_increasing r HK HT Hsig Hln) as Hp.
  rewrite !exp_ln in Hp by assumption.
  rewrite <- !(@call_log_spot K T r sigma HK) in Hc, Hp by assumption.
  rewrite !black_scholes_put_call. split; lra.
Qed.




(** ** Bounds of the prices *)

Lemma norm_cdf_R_le_gauss (d : R) : d < 0 -> norm_cdf_R d <= gauss d.
Proof.
  intros Hd. assert (Hn : 0 < - d) by lra.
  pose proof (norm_cdf_R_tail Hn) as Ht.
  rewrite norm_cdf_R_opp, gauss_even in Ht. lra.
Qed.

Lemma gauss_over_sqr (x d : R) : 0 < x -> x <= Rabs d -> gauss d <= 2 / x ^ 2.
Proof.
  intros Hx Hd.
  assert (Ha : 0 < Rabs d) by lra.
  replace (gauss d) with (gauss (Rabs d)).
  - eapply Rle_trans; [apply gauss_tail; exact Ha |].
    assert (Hx2 : 0 < x ^ 2) by nra.
    assert (Hd2 : x ^ 2 <= Rabs d ^ 2) by nra.
    unfold Rdiv. apply Rmult_le_compat_l; [lra |].
    apply Rinv_le_contravar; assumption.
  - unfold Rabs. destruct (Rcase_abs d); [apply gauss_even | reflexivity].
Qed.

Section PriceBounds.

Variables K T r sigma : R.
Hypothesis HK : 0 < K.
Hypothesis HT : 0 < T.
Hypothesis Hsig : 0 < sigma.

Let v : R := sigma * sqrt T.
Let P : R := K * exp (- r * T).
Let d1 : R -> R := d1_log K T r sigma.

Lemma gauss_d1_d2 (u : R) : exp u * gauss (d1 u) = P * gauss (d1 u - v).
Proof.
  pose proof (pdf_d1_d2 r HK HT Hsig u) as Hid.
  rewrite !norm_pdf_R_gauss in Hid.
  pose proof sqrt_2PI_pos as Hc.
  apply Rmult_eq_reg_l with (/ sqrt (2 * PI));
    [| apply Rgt_not_eq, Rinv_0_lt_compat, Hc].
  unfold P, d1, v. lra.
Qed.

(** Far out of the money the call is small; far in the money the put
    is. *)
Lemma call_log_small (u x : R) :
  0 < x -> d1 u <= - x ->
  Rabs (call_log K T r sigma u) <= 2 * P / x ^ 2.
Proof.
  intros Hx Hd.
  assert (Hv : 0 < v) by (apply v_pos; assumption).
  assert (HP : 0 < P) by (apply Rmult_lt_0_compat; [exact HK | apply exp_pos]).
  assert (Hd1 : d1 u < 0) by lra.
  assert (Hd2 : d1 u - v < 0) by lra.
  assert (Hg : gauss (d1 u - v) <= 2 / x ^ 2).
  { apply gauss_over_sqr; [exact Hx |]. rewrite Rabs_left by lra. lra. }
  pose proof (norm_cdf_R_le_gauss Hd1) as H1.
  pose proof (norm_cdf_R_le_gauss Hd2) as H2.
  pose proof (norm_cdf_R_bounds (d1 u)) as [B1 _].
  pose proof (norm_cdf_R_bounds (d1 u - v)) as [B2 _].
  pose proof (gauss_d1_d2 u) as Hid. pose proof (exp_pos u) as He.
  unfold call_log. fold v P d1.
  set (a := exp u * norm_cdf_R (d1 u)).
  set (b := P * norm_cdf_R (d1 u - v)).
  assert (Ha : 0 <= a <= P * gauss (d1 u - v)).
  { unfold a. split; [nra |]. rewrite <- Hid.
    apply Rmult_le_compat_l; lra. }
  assert (Hb : 0 <= b <= P * gauss (d1 u - v)).
  { unfold b. split; [nra |]. apply Rmult_le_compat_l; lra. }
  assert (Hq : P * gauss (d1 u - v) <= 2 * P / x ^ 2).
  { replace (2 * P / x ^ 2) with (P * (2 / x ^ 2)) by (field; nra).
    apply Rmult_le_compat_l; lra. }
  apply Rabs_le. lra.
Qed.

Lemma put_log_small (u x : R) :
  0 < x -> x <= d1 u - v ->
  Rabs (P - exp u + call_log K T r sigma u) <= 2 * P / x ^ 2.
Proof.
  intros Hx Hd.
  assert (Hv : 0 < v) by (apply v_pos; assumption).
  assert (HP : 0 < P) by (apply Rmult_lt_0_compat; [exact HK | apply exp_pos]).
  assert (Hg : gauss (d1 u - v) <= 2 / x ^ 2).
  { apply gauss_over_sqr; [exact Hx |]. rewrite Rabs_pos_eq by lra. lra. }
  assert (Hd1 : 0 < d1 u) by lra. assert (Hd2 : 0 < d1 u - v) by lra.
  pose proof (norm_cdf_R_tail Hd1) as H1.
  pose proof (norm_cdf_R_tail Hd2) as H2.
  pose proof (norm_cdf_R_bounds (d1 u)) as [_ B1].
  pose proof (norm_cdf_R_bounds (d1 u - v)) as [_ B2].
  pose proof (gauss_d1_d2 u) as Hid. pose proof (exp_pos u) as He.
  unfold call_log. fold v P d1.
  set (a := exp u * (1 - norm_cdf_R (d1 u))).
  set (b := P * (1 - norm_cdf_R (d1 u - v))).
  replace (P - exp u
           + (exp u * norm_cdf_R (d1 u) - P * norm_cdf_R (d1 u - v)))
    with (b - a) by (unfold a, b; ring).
  assert (Ha : 0 <= a <= P * gauss (d1 u - v)).
  { unfold a. split; [nra |]. rewrite <- Hid.
    apply Rmult_le_compat_l; lra. }
  assert (Hb : 0 <= b <= P * gauss (d1 u - v)).
  { unfold b. split; [nra |]. apply Rmult_le_compat_l; lra. }
  assert (Hq : P * gauss (d1 u - v) <= 2 * P / x ^ 2).
  { replace (2 * P / x ^ 2) with (P * (2 / x ^ 2)) by (field; nra).
    apply Rmult_le_compat_l; lra. }
  apply Rabs_le. lra.
Qed.

Lemma d1_log_at (u : R) :
  d1 u = (u - (ln K - (r + 1 / 2 * sigma ^ 2) * T)) / v.
Proof. unfold d1, d1_log. fold v. unfold Rdiv. ring. Qed.

Lemma call_log_pos (u : R) : 0 < call_log K T r sigma u.
Proof.
  assert (Hv : 0 < v) by (apply v_pos; assumption).
  assert (HP : 0 < P) by (apply Rmult_lt_0_compat; [exact HK | apply exp_pos]).
  assert (Hnn : forall u0, 0 <= call_log K T r sigma u0).
  { intros u0. apply Rnot_lt_le. intros Hneg.
    set (eps := - call_log K T r sigma u0).
    assert (He0 : 0 < eps) by (unfold eps; lra).
    assert (Heps : 0 < eps / (2 * P)) by (apply Rdiv_lt_0_compat; lra).
    set (x := 2 + 2 / (eps / (2 * P))).
    assert (Hq : 0 < 2 / (eps / (2 * P))) by (apply Rdiv_lt_0_compat; lra).
    assert (Hx : 0 < x) by (unfold x; lra).
    set (c := ln K - (r + 1 / 2 * sigma ^ 2) * T).
    set (u1 := Rmin (u0 - 1) (c - v * x)).
    assert (Hu1 : u1 < u0) by (pose proof (Rmin_l (u0 - 1) (c - v * x)); unfold u1; lra).
    assert (Hd : d1 u1 <= - x).
    { rewrite d1_log_at. fold c.
      apply Rmult_le_reg_r with v; [exact Hv |].
      unfold Rdiv. rewrite Rmult_assoc, Rinv_l, Rmult_1_r by lra.
      pose proof (Rmin_r (u0 - 1) (c - v * x)). unfold u1. lra. }
    pose proof (call_log_small Hx Hd) as Hs.
    pose proof (call_log_increasing r HK HT Hsig Hu1) as Hinc.
    assert (Hsm : 2 / x ^ 2 < eps / (2 * P))
      by (apply two_over_sqr_small; [exact Heps | unfold x; lra]).
    assert (Hb : 2 * P / x ^ 2 < eps).
    { replace (2 * P / x ^ 2) with (2 / x ^ 2 * P) by (field; nra).
      apply Rmult_lt_compat_r with (r := P) in Hsm; [| exact HP].
      replace (eps / (2 * P) * P) with (eps / 2) in Hsm by (field; lra).
      lra. }
    apply Rabs_le_inv in Hs. unfold eps in *. lra. }
  assert (Hlt : u - 1 < u) by lra.
  pose proof (call_log_increasing r HK HT Hsig Hlt).
  pose proof (Hnn (u - 1)). lra.
Qed.

Lemma put_log_pos (u : R) : 0 < P - exp u + call_log K T r sigma u.
Proof.
  assert (Hv : 0 < v) by (apply v_pos; assumption).
  assert (HP : 0 < P) by (apply Rmult_lt_0_compat; [exact HK | apply exp_pos]).
  assert (Hnn : forall u0, 0 <= P - exp u0 + call_log K T r sigma u0).
  { intros u0. apply Rnot_lt_le. intros Hneg.
    set (eps := - (P - exp u0 + call_log K T r sigma u0)).
    assert (He0 : 0 < eps) by (unfold eps; lra).
    assert (Heps : 0 < eps / (2 * P)) by (apply Rdiv_lt_0_compat; lra).
    set (x := 2 + 2 / (eps / (2 * P))).
    assert (Hq : 0 < 2 / (eps / (2 * P))) by (apply Rdiv_lt_0_compat; lra).
    assert (Hx : 0 < x) by (unfold x; lra).
    set (c := ln K - (r + 1 / 2 * sigma ^ 2) * T).
    set (u1 := Rmax (u0 + 1) (c + v * (x + v))).
    assert (Hu1 : u0 < u1) by (pose proof (Rmax_l (u0 + 1) (c + v * (x + v))); unfold u1; lra).
    assert (Hd : x <= d1 u1 - v).
    { rewrite d1_log_at. fold c.
      apply Rmult_le_reg_r with v; [exact Hv |].
      replace (((u1 - c) / v - v) * v) with (u1 - c - v * v) by (field; lra).
      pose proof (Rmax_r (u0 + 1) (c + v * (x + v))). unfold u1. lra. }
    pose proof (put_log_small Hx Hd) as Hs.
    pose proof (spot_minus_call_log_increasing r HK HT Hsig Hu1) as Hinc.
    assert (Hsm : 2 / x ^ 2 < eps / (2 * P))
      by (apply two_over_sqr_small; [exact Heps | unfold x; lra]).
    assert (Hb : 2 * P / x ^ 2 < eps).
    { replace (2 * P / x ^ 2) with (2 / x ^ 2 * P) by (field; nra).
      apply Rmult_lt_compat_r with (r := P) in Hsm; [| exact HP].
      replace (eps / (2 * P) * P) with (eps / 2) in Hsm by (field; lra).
      lra. }
    apply Rabs_le_inv in Hs. unfold eps in *. lra. }
  assert (Hlt : u < u + 1) by lra.
  pose proof (spot_minus_call_log_increasing r HK HT Hsig Hlt).
  pose proof (Hnn (u + 1)). lra.
Qed.

End PriceBounds.

(** On valid inputs both prices are positive. *)
Lemma prices_positive (S K T r sigma : R) :
  0 < S -> 0 < K -> 0 < T -> 0 < sigma ->
  0 < black_scholes_call S K T r sigma
  /\ 0 < black_scholes_put S K T r sigma.
Proof.
  intros HS HK HT Hsig.
  pose proof (call_log_pos r HK HT Hsig (ln S)) as Hc.
  pose proof (put_log_pos r HK HT Hsig (ln S)) as Hp.
  rewrite (exp_ln S HS) in Hp.
  rewrite <- (@call_log_spot K T r sigma HK S HS) in Hc, Hp.
  rewrite black_scholes_put_call. split; lra.
Qed.

(** X11: on valid inputs the call price is at most the spot [S] and the
    put price at most the discounted strike [K exp(-rT)]. *)
Theorem price_bounds :
  forall S K T r sigma : R,
    0 < S -> 0 < K -> 0 < T -> 0 < sigma ->
    black_scholes_call S K T r sigma <= S
    /\ black_scholes_put S K T r sigma <= K * exp (- r * T).
Proof.
  intros S K T r sigma HS HK HT Hsig.
  pose proof (norm_cdf_R_bounds (d1_R S K T r sigma)) as [B1l B1u].
  pose proof (norm_cdf_R_bounds (d1_R S K T r sigma - sigma * sqrt T))
    as [B2l B2u].
  pose proof (exp_pos (- r * T)) as He.
  assert (HP : 0 < K * exp (- r * T)) by (apply Rmult_lt_0_compat; assumption).
  rewrite black_scholes_put_call, black_scholes_call_d1.
  set (c1 := norm_cdf_R (d1_R S K T r sigma)) in *.
  set (c2 := norm_cdf_R (d1_R S K T r sigma - sigma * sqrt T)) in *.
  set (P := K * exp (- r * T)) in *.
  split; nra.
Qed.

Lemma price_bounds_witness :
  black_scholes_call 100 100 1 0.05 0.2 <= 100
  /\ black_scholes_put 100 100 1 0.05 0.2 <= 100 * exp (- (0.05) * 1).
Proof. apply price_bounds; lra. Defined.

(** X18: on the ranges of the sliders neither of the two prices that the
    dashboard shows is negative. *)
Theorem dashboard_prices_not_negative :
  forall (S K T r sigma purchase_price : R) (option_type greek_choice : string),
    50 <= S <= 200 -> 50 <= K <= 200 -> 0.1 <= T <= 5 ->
    0 <= r <= 0.1 -> 0.1 <= sigma <= 1 ->
    let shown := dashboard S K T r sigma purchase_price
                   option_type greek_choice in
    call_price shown = black_scholes_call S K T r sigma
    /\ put_price shown = black_scholes_put S K T r sigma
    /\ 0 <= call_price shown
    /\ 0 <= put_price shown.
Proof.
  intros S K T r sigma purchase_price option_type greek_choice
         HS HK HT Hr Hsig shown.
  unfold shown, dashboard. cbn [call_price put_price].
  destruct (@prices_positive S K T r sigma) as [Hc Hp];
    [lra | lra | lra | lra |].
  split; [reflexivity | split; [reflexivity | split; lra]].
Qed.

Lemma dashboard_prices_not_negative_witness :
  0 <= call_price (dashboard 50 200 0.1 0.05 0.1 10 "Call" "Delta")
  /\ 0 <= put_price (dashboard 200 50 0.1 0.05 0.1 10 "Put" "Delta").
Proof.
  destruct (@dashboard_prices_not_negative 50 200 0.1 0.05 0.1 10
              "Call" "Delta") as (_ & _ & Hc & _);
    [lra | lra | lra | lra | lra |].
  destruct (@dashboard_prices_not_negative 200 50 0.1 0.05 0.1 10
              "Put" "Delta") as (_ & _ & _ & Hp);
    [lra | lra | lra | lra | lra |].
  split; assumption.
Defined.

(** ** Inputs the script does not check *)

Lemma fold_left_unchanged {X Y : Type} (f : Y -> X -> Y) (l : list X) (acc : Y) :
  (forall a x, f a x = a) -> fold_left f l acc = acc.
Proof.
  intros Hf. revert acc.
  induction l as [| x l IH]; intros acc; simpl; [reflexivity |].
  now rewrite Hf, IH.
Qed.

(** X12: the [if]/[elif] chain of [plot_greek_curve] has no [else]: for
    a Greek name outside the five it knows, nothing is collected, and
    the curve is empty while the spot grid still has its 100 points. *)
Theorem plot_greek_curve_unknown_greek :
  forall (A : Type) (N : Numeric A) (K T r sigma : A) (greek option : string),
    ~ In greek greek_choices ->
    plot_greek_curve K T r sigma greek option = []
    /\ List.length (curve_S_vals (A := A)) = 100%nat.
Proof.
  intros A N K T r sigma greek option Hnot.
  split; [| apply linspace_length].
  assert (Hne : forall name : string,
             In name greek_choices -> String.eqb greek name = false).
  { intros name Hin. apply String.eqb_neq. intros ->. contradiction. }
  unfold plot_greek_curve. apply fold_left_unchanged.
  intros values S. unfold curve_step.
  rewrite !Hne by (simpl; auto 10). reflexivity.
Qed.

Lemma plot_greek_curve_unknown_greek_witness :
  plot_greek_curve (A := R) 100 1 0.05 0.2 "delta" "call" = [].
Proof.
  apply plot_greek_curve_unknown_greek.
  simpl. intros [H | [H | [H | [H | [H | []]]]]]; discriminate H.
Defined.

(** X13: the volatility is not checked for its sign.  With the other
    inputs valid, negating a volatility negates [d1] and [d2], so the
    call formula returns minus the put price and the put formula minus
    the call price. *)
Theorem negative_volatility_prices :
  forall S K T r sigma : R,
    0 < S -> 0 < K -> 0 < T -> 0 < sigma ->
    black_scholes_call S K T r (- sigma) = - black_scholes_put S K T r sigma
    /\ black_scholes_put S K T r (- sigma) = - black_scholes_call S K T r sigma.
Proof.
  intros S K T r sigma HS HK HT Hsig.
  assert (Hs : 0 < sqrt T) by (apply sqrt_lt_R0, HT).
  assert (Hd :
    (ln (S / K) + (r + 1 / 2 * (- sigma) ^ 2) * T) / (- sigma * sqrt T)
    = - ((ln (S / K) + (r + 1 / 2 * sigma ^ 2) * T) / (sigma * sqrt T))).
  { field. lra. }
  unfold black_scholes_call, black_scholes_put. real_ops.
  rewrite lit_half, Hd.
  set (d1 := (ln (S / K) + (r + 1 / 2 * sigma ^ 2) * T) / (sigma * sqrt T)).
  replace (- d1 - - sigma * sqrt T) with (- (d1 - sigma * sqrt T)) by ring.
  rewrite !Ropp_involutive. split; ring.
Qed.

Lemma negative_volatility_prices_witness :
  black_scholes_call 100 100 1 0.05 (- (0.2))
  = - black_scholes_put 100 100 1 0.05 0.2
  /\ black_scholes_put 100 100 1 0.05 (- (0.2))
     = - black_scholes_call 100 100 1 0.05 0.2.
Proof. apply negative_volatility_prices; lra. Defined.

(** ** Where the formulas are defined *)

(** The inputs on which the logarithm, the square root and the divisions
    of [d1] are all defined. *)
Definition defined_inputs (S K T sigma : R) : Prop :=
  K <> 0 /\ 0 < S / K /\ 0 < T /\ sigma <> 0.

Definition some_greeks (g : Greeks R) : Greeks PR :=
  mkGreeks (Some (Delta g)) (Some (Gamma g)) (Some (Vega g))
           (Some (Theta g)) (Some (Rho g)).

(** [d1] as the three functions compute it, over the partial reals. *)
Definition d1_PR (S K T r sigma : R) : PR :=
  ((np_log (Some S / Some K) + (Some r + lit 0.5%Q * Some sigma ** 2) * Some T)
   / (Some sigma * np_sqrt (Some T)))%num.

Lemma d1_PR_defined (S K T r sigma : R) :
  defined_inputs S K T sigma ->
  d1_PR S K T r sigma
  = Some ((ln (S / K) + (r + Q2R 0.5 * sigma ^ 2) * T) / (sigma * sqrt T)).
Proof.
  intros (HK & Hq & HT & Hsig).
  assert (Hs : 0 < sqrt T) by (apply sqrt_lt_R0, HT).
  assert (Hd : sigma * sqrt T <> 0) by (apply Rmult_integral_contrapositive; lra).
  unfold d1_PR. simpl.
  destruct (Req_dec_T K 0) as [HK0 | _]; [contradiction |]. simpl.
  destruct (Rlt_dec 0 (S / K)) as [_ | Hn]; [| contradiction]. simpl.
  destruct (Rle_dec 0 T) as [_ | Hn]; [| lra]. simpl.
  destruct (Req_dec_T (sigma * sqrt T) 0) as [Hz | _]; [contradiction |].
  reflexivity.
Qed.

Lemma prices_PR_defined (S K T r sigma : R) :
  defined_inputs S K T sigma ->
  black_scholes_call (Some S) (Some K) (Some T) (Some r) (Some sigma)
    = Some (black_scholes_call S K T r sigma)
  /\ black_scholes_put (Some S) (Some K) (Some T) (Some r) (Some sigma)
    = Some (black_scholes_put S K T r sigma).
Proof.
  intros Hdef. pose proof (d1_PR_defined r Hdef) as Hd1.
  destruct Hdef as (HK & Hq & HT & Hsig).
  assert (HT0 : 0 <= T) by lra.
  split.
  - unfold black_scholes_call. fold (d1_PR S K T r sigma). rewrite Hd1.
    simpl. destruct (Rle_dec 0 T) as [_ | Hn]; [| contradiction].
    reflexivity.
  - unfold black_scholes_put. fold (d1_PR S K T r sigma). rewrite Hd1.
    simpl. destruct (Rle_dec 0 T) as [_ | Hn]; [| contradiction].
    reflexivity.
Qed.

Lemma greeks_PR_defined (S K T r sigma : R) (option : string) :
  defined_inputs S K T sigma ->
  option_greeks (Some S) (Some K) (Some T) (Some r) (Some sigma) option
  = some_greeks (option_greeks S K T r sigma option).
Proof.
  intros Hdef. pose proof (d1_PR_defined r Hdef) as Hd1.
  destruct Hdef as (HK & Hq & HT & Hsig).
  assert (Hs : 0 < sqrt T) by (apply sqrt_lt_R0, HT).
  assert (HS : S <> 0).
  { intros ->. unfold Rdiv in Hq. rewrite Rmult_0_l in Hq. lra. }
  assert (Hsq : sqrt T <> 0) by lra.
  assert (HT0 : 0 <= T) by lra.
  unfold option_greeks. fold (d1_PR S K T r sigma). rewrite Hd1.
  assert (H2 : Q2R 2 * sqrt T <> 0).
  { apply Rmult_integral_contrapositive. split; [| exact Hsq].
    unfold Q2R. simpl. lra. }
  assert (H3 : S * sigma * sqrt T <> 0).
  { repeat apply Rmult_integral_contrapositive_currified; assumption. }
  destruct (String.eqb option "call"); simpl;
    destruct (Rle_dec 0 T) as [_ | Hn]; try contradiction; simpl;
    destruct (Req_dec_T (Q2R 2 * sqrt T) 0) as [Hz | _];
    try contradiction;
    destruct (Req_dec_T (S * sigma * sqrt T) 0) as [Hz | _];
    try contradiction; reflexivity.
Qed.

(** ** The dashboard on the ranges of its sliders *)

Lemma set_nth_map {X Y : Type} (f : X -> Y) (n : nat) (v : X) (l : list X) :
  set_nth n (f v) (map f l) = map f (set_nth n v l).
Proof.
  revert n. induction l as [| x l IH]; intros [| n]; simpl; try reflexivity.
  now rewrite IH.
Qed.

(** Over the partial reals [linspace] is defined and returns the samples
    of the evaluation over the reals. *)
Lemma linspace_PR (a b : R) (num : nat) :
  (2 <= num)%nat ->
  linspace (Some a) (Some b) num = map Some (linspace a b num).
Proof.
  intros Hnum. unfold linspace.
  assert (Hn : of_nat (A := R) (num - 1) <> 0).
  { rewrite of_nat_INR. apply not_0_INR. lia. }
  assert (Hstep : (@div (option R) _ (@sub (option R) _ (Some b) (Some a))
                     (of_nat (A := Datatypes.option R) (num - 1)))
                  = Some ((b - a) / of_nat (A := R) (num - 1))).
  { change (of_nat (A := Datatypes.option R) (num - 1))
      with (Some (of_nat (A := R) (num - 1))).
    cbn [div sub PR_numeric pr_div pr_lift2].
    destruct (Req_dec_T (of_nat (num - 1)) 0) as [Hz | _];
      [contradiction | reflexivity]. }
  rewrite Hstep.
  assert (Hmap : map (fun i : nat =>
                        @add (option R) _ (@mul (option R) _ (of_nat i)
                                     (Some ((b - a) / of_nat (num - 1))))
                                  (Some a)) (seq 0 num)
                 = map Some
                     (map (fun i : nat =>
                             of_nat i * ((b - a) / of_nat (num - 1)) + a)
                          (seq 0 num))).
  { rewrite map_map. apply map_ext. intros i. reflexivity. }
  rewrite Hmap.
  destruct num as [| [| n]]; try lia.
  apply set_nth_map.
Qed.

Lemma linspace_R_range (a b x : R) (num : nat) :
  a <= b -> (2 <= num)%nat -> In x (linspace a b num) -> a <= x <= b.
Proof.
  intros Hab Hnum Hin.
  destruct (In_nth_error _ _ Hin) as [k Hk].
  assert (Hlt : (k < num)%nat).
  { rewrite <- (linspace_length a b num). apply nth_error_Some.
    rewrite Hk. discriminate. }
  rewrite (linspace_R_nth_error a b Hnum Hlt) in Hk.
  injection Hk as <-.
  assert (Hn : 0 < INR (num - 1)) by (apply lt_0_INR; lia).
  assert (Hk0 : 0 <= INR k) by apply pos_INR.
  assert (Hk1 : INR k <= INR (num - 1)) by (apply le_INR; lia).
  assert (Hq : 0 <= INR k * ((b - a) / INR (num - 1)) <= b - a).
  { split.
    - apply Rmult_le_pos; [exact Hk0 |].
      apply Rmult_le_pos; [lra | left; apply Rinv_0_lt_compat, Hn].
    - replace (INR k * ((b - a) / INR (num - 1)))
        with ((b - a) * (INR k / INR (num - 1))) by (field; lra).
      assert (INR k / INR (num - 1) <= 1).
      { apply Rmult_le_reg_r with (INR (num - 1)); [exact Hn |].
        unfold Rdiv. rewrite Rmult_assoc, Rinv_l by lra. lra. }
      nra. }
  lra.
Qed.

Lemma curve_PR (K T r sigma : R) (greek option : string) :
  0 < K -> 0 < T -> sigma <> 0 ->
  plot_greek_curve (Some K) (Some T) (Some r) (Some sigma)
    greek option
  = map Some (plot_greek_curve K T r sigma greek option).
Proof.
  intros HK HT Hsig.
  assert (Hdef : forall S, In S (curve_S_vals (A := R)) ->
                   defined_inputs S K T sigma).
  { intros S HS. unfold curve_S_vals in HS. cbn [lit R_numeric] in HS.
    apply linspace_R_range in HS; [| lra | lia].
    repeat split; try lra. apply Rdiv_lt_0_compat; lra. }
  assert (Hgrid : curve_S_vals = map Some (curve_S_vals (A := R)))
    by (apply linspace_PR; lia).
  assert (Hsel : forall (sel_PR : Greeks PR -> PR) (sel_R : Greeks R -> R),
    (forall g, sel_PR (some_greeks g) = Some (sel_R g)) ->
    fold_left (fun vs S =>
                 vs ++ [sel_PR (option_greeks S (Some K) (Some T) (Some r)
                                  (Some sigma) option)])
              (curve_S_vals (A := Datatypes.option R)) []
    = map Some
        (fold_left (fun vs S =>
                      vs ++ [sel_R (option_greeks S K T r sigma option)])
                   (curve_S_vals (A := R)) [])).
  { intros sel_PR sel_R Hs.
    rewrite !fold_left_app_one, Hgrid. cbn [app]. rewrite !map_map.
    apply map_ext_in. intros S HS.
    rewrite (greeks_PR_defined r option (Hdef S HS)). apply Hs. }
  unfold plot_greek_curve, curve_step.
  destruct (String.eqb greek "Delta"); [apply Hsel; reflexivity |].
  destruct (String.eqb greek "Gamma"); [apply Hsel; reflexivity |].
  destruct (String.eqb greek "Vega"); [apply Hsel; reflexivity |].
  destruct (String.eqb greek "Theta"); [apply Hsel; reflexivity |].
  destruct (String.eqb greek "Rho"); [apply Hsel; reflexivity |].
  rewrite !fold_left_unchanged by reflexivity. reflexivity.
Qed.

Lemma heatmap_PR (K T r purchase_price : R) (option : string) :
  0 < K -> 0 < T ->
  plot_pnl_heatmap (Some K) (Some T) (Some r)
    (Some purchase_price) option
  = map (map Some) (plot_pnl_heatmap K T r purchase_price option).
Proof.
  intros HK HT.
  assert (HS : heatmap_S_vals = map Some (heatmap_S_vals (A := R)))
    by (apply linspace_PR; lia).
  assert (Hsig : heatmap_sigma_vals (A := Datatypes.option R)
                 = map Some (heatmap_sigma_vals (A := R)))
    by (apply linspace_PR; lia).
  rewrite !plot_pnl_heatmap_matrix, HS, Hsig, !map_map.
  apply map_ext_in. intros S HinS. rewrite !map_map.
  apply map_ext_in. intros sig Hinsig.
  unfold heatmap_S_vals in HinS. unfold heatmap_sigma_vals in Hinsig.
  cbn [lit R_numeric] in HinS, Hinsig.
  apply linspace_R_range in HinS; [| lra | lia].
  apply linspace_R_range in Hinsig; [| lra | lia].
  assert (Hdef : defined_inputs S K T sig).
  { repeat split; try lra. apply Rdiv_lt_0_compat; lra. }
  destruct (prices_PR_defined r Hdef) as [Hc Hp].
  unfold heatmap_price. destruct (String.eqb option "call");
    [rewrite Hc | rewrite Hp]; reflexivity.
Qed.

(** X15: the sliders keep [S] and [K] in [[50, 200]], [T] in
    [[0.1, 5]], [r] in [[0, 0.1]] and [sigma] in [[0.1, 1]].  On such
    inputs, for any purchase price and any selection, nothing the
    dashboard computes is undefined: both prices, the five Greeks, every
    point of the curve and every cell of the heatmap are the values of
    the evaluation over the reals. *)
Theorem dashboard_defined_on_slider_ranges :
  forall (S K T r sigma purchase_price : R) (option_type greek_choice : string),
    50 <= S <= 200 -> 50 <= K <= 200 -> 0.1 <= T <= 5 ->
    0 <= r <= 0.1 -> 0.1 <= sigma <= 1 ->
    let shown := dashboard (Some S) (Some K) (Some T) (Some r)
                   (Some sigma) (Some purchase_price)
                   option_type greek_choice in
    let real := dashboard S K T r sigma purchase_price
                  option_type greek_choice in
    call_price shown = Some (call_price real)
    /\ put_price shown = Some (put_price real)
    /\ shown_greeks shown = some_greeks (shown_greeks real)
    /\ shown_curve shown = map Some (shown_curve real)
    /\ shown_heatmap shown = map (map Some) (shown_heatmap real).
Proof.
  intros S K T r sigma purchase_price option_type greek_choice
         HS HK HT Hr Hsig shown real.
  assert (Hdef : defined_inputs S K T sigma).
  { repeat split; try lra. apply Rdiv_lt_0_compat; lra. }
  destruct (prices_PR_defined r Hdef) as [Hc Hp].
  unfold shown, real, dashboard. cbn [call_price put_price shown_greeks
                                      shown_curve shown_heatmap].
  split; [exact Hc | split; [exact Hp | split; [| split]]].
  - apply greeks_PR_defined. exact Hdef.
  - apply curve_PR; lra.
  - apply heatmap_PR; lra.
Qed.

Lemma dashboard_defined_on_slider_ranges_witness :
  call_price (dashboard (Some 100) (Some 100) (Some 1) (Some 0.05)
                (Some 0.2) (Some 10) "Call" "Delta")
  = Some (black_scholes_call 100 100 1 0.05 0.2).
Proof.
  apply (@dashboard_defined_on_slider_ranges 100 100 1 0.05 0.2 10
           "Call" "Delta"); lra.
Defined.

(** ** The heatmap over the reals *)

Lemma get_cell_map2_inv {X Y Z : Type} (f : X -> Y -> Z) (xs : list X)
    (ys : list Y) (i j : nat) (v : Z) :
  get_cell (map (fun x => map (f x) ys) xs) i j = Some v ->
  exists x y, nth_error xs i = Some x /\ nth_error ys j = Some y
              /\ v = f x y.
Proof.
  unfold get_cell. rewrite nth_error_map.
  destruct (nth_error xs i) as [x |]; simpl; [| discriminate].
  rewrite nth_error_map.
  destruct (nth_error ys j) as [y |]; simpl; [| discriminate].
  intros [= <-]. exists x, y. auto.
Qed.

(** The samples of [linspace] over the reals, by position. *)
Lemma linspace_R_sample (a b x : R) (num k : nat) :
  (2 <= num)%nat -> nth_error (linspace a b num) k = Some x ->
  (k < num)%nat /\ x = a + INR k * ((b - a) / INR (num - 1)).
Proof.
  intros Hnum Hk.
  assert (Hlt : (k < num)%nat).
  { rewrite <- (linspace_length a b num). apply nth_error_Some.
    rewrite Hk. discriminate. }
  split; [exact Hlt |].
  rewrite (linspace_R_nth_error a b Hnum Hlt) in Hk. now injection Hk.
Qed.

Lemma linspace_R_increasing (a b x x' : R) (num k k' : nat) :
  a < b -> (2 <= num)%nat -> (k < k')%nat ->
  nth_error (linspace a b num) k = Some x ->
  nth_error (linspace a b num) k' = Some x' ->
  a <= x /\ x < x'.
Proof.
  intros Hab Hnum Hkk Hk Hk'.
  destruct (linspace_R_sample a b k Hnum Hk) as [Hlt ->].
  destruct (linspace_R_sample a b k' Hnum Hk') as [Hlt' ->].
  assert (Hn : 0 < INR (num - 1)) by (apply lt_0_INR; lia).
  assert (Hstep : 0 < (b - a) / INR (num - 1))
    by (apply Rdiv_lt_0_compat; lra).
  assert (Hk0 : 0 <= INR k) by apply pos_INR.
  assert (Hlt2 : INR k < INR k') by (apply lt_INR; exact Hkk).
  split; nra.
Qed.

(** X16: the heatmap the dashboard shows, for a strike, a maturity and a
    rate in the ranges of the sliders and any purchase price.  Each of
    the 64 cells holds a value that is not below minus the purchase
    price (the loss is at most the price paid); down a column (growing
    spot) the values do not fall for the option "call" and do not rise
    for every other option string. *)
Theorem heatmap_cells_ordered :
  forall (K T r purchase_price : R) (option : string),
    50 <= K <= 200 -> 0.1 <= T <= 5 -> 0 <= r <= 0.1 ->
    let pnl := plot_pnl_heatmap K T r purchase_price option in
    (forall i j : nat, (i < 8)%nat -> (j < 8)%nat ->
        exists v : R, get_cell pnl i j = Some v /\ - purchase_price <= v)
    /\ (forall i i' j : nat, (i <= i')%nat -> (i' < 8)%nat -> (j < 8)%nat ->
          exists v v' : R,
            get_cell pnl i j = Some v /\ get_cell pnl i' j = Some v'
            /\ if String.eqb option "call" then v <= v' else v' <= v).
Proof.
  intros K T r purchase_price option HK' HT' _ pnl.
  assert (HK : 0 < K) by lra. assert (HT : 0 < T) by lra.
  assert (Hcell : forall i j v, get_cell pnl i j = Some v ->
    exists S sig,
      nth_error (linspace (Q2R 50) (Q2R 150) 8) i = Some S
      /\ nth_error (linspace (Q2R 0.1) (Q2R 0.6) 8) j = Some sig
      /\ 50 <= S /\ 0.1 <= sig
      /\ v = (if String.eqb option "call" then black_scholes_call S K T r sig
              else black_scholes_put S K T r sig) - purchase_price).
  { intros i j v Hv. unfold pnl in Hv.
    rewrite plot_pnl_heatmap_matrix in Hv.
    apply (get_cell_map2_inv
             (fun S sig => heatmap_price K T r option S sig - purchase_price))
      in Hv.
    destruct Hv as (S & sig & HS & Hsig & ->).
    exists S, sig. repeat split; try assumption.
    - apply nth_error_In in HS. unfold heatmap_S_vals in HS.
      cbn [lit R_numeric] in HS.
      apply linspace_R_range in HS; [lra | lra | lia].
    - apply nth_error_In in Hsig. unfold heatmap_sigma_vals in Hsig.
      cbn [lit R_numeric] in Hsig.
      apply linspace_R_range in Hsig; [lra | lra | lia]. }
  assert (Hex : forall i j : nat, (i < 8)%nat -> (j < 8)%nat ->
            exists v, get_cell pnl i j = Some v).
  { intros i j Hi Hj. unfold pnl. rewrite plot_pnl_heatmap_matrix.
    rewrite (get_cell_map2
               (fun S sig => heatmap_price K T r option S sig - purchase_price)
               heatmap_S_vals heatmap_sigma_vals 0 0)
      by (unfold heatmap_S_vals, heatmap_sigma_vals;
          rewrite linspace_length; exact Hi || exact Hj).
    eexists. reflexivity. }
  assert (Hlow : forall (i j : nat) (v : R),
            get_cell pnl i j = Some v -> - purchase_price <= v).
  { intros i j v Hv.
    destruct (Hcell i j v Hv) as (S & sig & _ & _ & HS & Hsig & ->).
    assert (HS0 : 0 < S) by lra. assert (Hsig0 : 0 < sig) by lra.
    destruct (prices_positive r HS0 HK HT Hsig0) as [Hc Hp].
    destruct (String.eqb option "call"); lra. }
  split.
  - intros i j Hi Hj. destruct (Hex i j Hi Hj) as [v Hv].
    exists v. split; [exact Hv | apply (Hlow i j v Hv)].
  - intros i i' j Hii Hi' Hj.
    destruct (Hex i j) as [v Hv]; [lia | exact Hj |].
    destruct (Hex i' j Hi' Hj) as [v' Hv'].
    exists v, v'. split; [exact Hv | split; [exact Hv' |]].
    destruct (Nat.eq_dec i i') as [<- | Hne].
    { rewrite Hv in Hv'. injection Hv' as <-.
      destruct (String.eqb option "call"); lra. }
    assert (Hlti : (i < i')%nat) by lia.
    destruct (Hcell i j v Hv) as (S & sig & HS & Hsig & _ & Hsig01 & ->).
    destruct (Hcell i' j v' Hv') as (S' & sig' & HS' & Hsig' & _ & _ & ->).
    assert (sig' = sig) by congruence. subst sig'.
    destruct (@linspace_R_increasing (Q2R 50) (Q2R 150) S S' 8 i i')
      as [Hlo Hlt]; try assumption; try lra; try lia.
    assert (HS0 : 0 < S) by lra. assert (Hsig0 : 0 < sig) by lra.
    destruct (prices_strictly_monotone_in_spot r HK HT Hsig0 HS0 Hlt)
      as [Hc Hp].
    destruct (String.eqb option "call"); lra.
Qed.

Lemma heatmap_cells_ordered_witness :
  exists v v' : R,
    get_cell (plot_pnl_heatmap 100 1 0.05 10 "Call") 2 3 = Some v
    /\ get_cell (plot_pnl_heatmap 100 1 0.05 10 "Call") 5 3 = Some v'
    /\ v' <= v /\ - 10 <= v'.
Proof.
  destruct (@heatmap_cells_ordered 100 1 0.05 10 "Call") as (Hlow & H);
    [lra | lra | lra |].
  destruct (H 2%nat 5%nat 3%nat) as (v & v' & Hv & Hv' & Hle);
    [lia | lia | lia |].
  destruct (Hlow 5%nat 3%nat) as (w & Hw & Hlo); [lia | lia |].
  exists v, v'. split; [exact Hv | split; [exact Hv' | split]].
  - exact Hle.
  - rewrite Hv' in Hw. injection Hw as <-. exact Hlo.
Defined.

(** ** The loops of the heatmap on any grid *)

Section Loops.

Context {X : Type}.

Lemma set_nth_length (n : nat) (v : X) (l : list X) :
  List.length (set_nth n v l) = List.length l.
Proof.
  revert n. induction l as [| x l IH]; intros [| n]; simpl; auto.
Qed.

(** Writing the cells [j0, j0 + 1, ...] of a row one after the other
    replaces that stretch of the row. *)
Lemma row_fill {Y : Type} (g : Y -> X) (ys : list Y) (j0 : nat)
    (done todo rest : list X) :
  List.length done = j0 -> List.length todo = List.length ys ->
  fold_left (fun row j_y => set_nth (fst j_y) (g (snd j_y)) row)
            (enumerate_from j0 ys) (done ++ todo ++ rest)
  = done ++ map g ys ++ rest.
Proof.
  revert j0 done todo.
  induction ys as [| y ys IH]; intros j0 done todo Hdone Htodo.
  - destruct todo; [reflexivity | discriminate].
  - destruct todo as [| t todo]; [discriminate |].
    simpl in Htodo. injection Htodo as Htodo. simpl.
    assert (Hset : set_nth j0 (g y) (done ++ t :: todo ++ rest)
                   = (done ++ [g y]) ++ todo ++ rest).
    { subst j0. clear. induction done as [| d done IHd]; simpl.
      - reflexivity.
      - now rewrite IHd. }
    rewrite Hset, (IH (S j0) (done ++ [g y]) todo).
    + rewrite <- app_assoc. reflexivity.
    + rewrite length_app. simpl. lia.
    + exact Htodo.
Qed.

End Loops.

Section Matrix.

Context {X : Type}.

Lemma set_nth_middle (done : list (list X)) (row row' : list X)
    (rest : list (list X)) :
  set_nth (List.length done) row' (done ++ row :: rest)
  = done ++ row' :: rest.
Proof.
  induction done as [| d done IH]; simpl; [reflexivity | now rewrite IH].
Qed.

Lemma nth_error_middle (done : list (list X)) (row : list X)
    (rest : list (list X)) :
  nth_error (done ++ row :: rest) (List.length done) = Some row.
Proof.
  induction done as [| d done IH]; simpl; [reflexivity | exact IH].
Qed.

(** The inner loop, on row [i] of the matrix. *)
Lemma inner_loop_row {Y : Type} (g : Y -> X) (ys : list Y)
    (done : list (list X)) (row : list X) (rest : list (list X)) :
  List.length row = List.length ys ->
  fold_left (fun st j_y =>
               set_cell (List.length done) (fst j_y) (g (snd j_y)) st)
            (enumerate ys) (done ++ row :: rest)
  = done ++ map g ys :: rest.
Proof.
  intros Hrow.
  assert (Hgen : forall (l : list (nat * Y)) (cur : list X),
    fold_left (fun st j_y =>
                 set_cell (List.length done) (fst j_y) (g (snd j_y)) st)
              l (done ++ cur :: rest)
    = done ++ fold_left (fun r j_y => set_nth (fst j_y) (g (snd j_y)) r)
                        l cur :: rest).
  { induction l as [| [j y] l IH]; intros cur; simpl; [reflexivity |].
    unfold set_cell at 2. rewrite nth_error_middle, set_nth_middle.
    apply IH. }
  rewrite Hgen. do 2 f_equal.
  pose proof (@row_fill X Y g ys 0 [] row [] eq_refl Hrow) as Hfill.
  simpl in Hfill. rewrite !app_nil_r in Hfill. exact Hfill.
Qed.

End Matrix.

Section HeatmapLoops.

Context {A : Type} `{Numeric A}.

Lemma heatmap_loops_from (K T r purchase_price : A) (option : string)
    (sigma_vals S_vals : list A) (done todo : list (list A)) :
  List.length todo = List.length S_vals ->
  (forall row, In row todo -> List.length row = List.length sigma_vals) ->
  fold_left
    (fun st i_S =>
       fold_left
         (fun st j_sig =>
            set_cell (fst i_S) (fst j_sig)
              (sub (heatmap_price K T r option (snd i_S) (snd j_sig))
                   purchase_price) st)
         (enumerate sigma_vals) st)
    (enumerate_from (List.length done) S_vals) (done ++ todo)
  = done ++ map (fun S =>
                   map (fun sig =>
                          sub (heatmap_price K T r option S sig)
                              purchase_price) sigma_vals) S_vals.
Proof.
  revert done todo.
  induction S_vals as [| s S_vals IH]; intros done todo Hlen Hrows.
  - destruct todo; [reflexivity | discriminate].
  - destruct todo as [| row todo]; [discriminate |].
    simpl in Hlen. injection Hlen as Hlen.
    cbn [enumerate_from fold_left fst snd].
    set (g := fun sig => sub (heatmap_price K T r option s sig)
                             purchase_price).
    pose proof (@inner_loop_row _ _ g sigma_vals done row todo
                  (Hrows row (or_introl eq_refl))) as Hinner.
    unfold g at 1 in Hinner. cbv beta in Hinner. rewrite Hinner.
    replace (S (List.length done))
      with (List.length (done ++ [map g sigma_vals]))
      by (rewrite length_app; simpl; lia).
    replace (done ++ map g sigma_vals :: todo)
      with ((done ++ [map g sigma_vals]) ++ todo)
      by (rewrite <- app_assoc; reflexivity).
    rewrite IH.
    + rewrite <- app_assoc. reflexivity.
    + exact Hlen.
    + intros row' Hin. apply Hrows. now right.
Qed.

End HeatmapLoops.

(** X17: the two loops of the heatmap, on any two grids and any matrix
    [pnl] with one row per spot and one column per volatility: they
    overwrite every cell, so the result holds the price at each grid
    point minus the purchase price and nothing of what [pnl] held
    before. *)
Theorem heatmap_loops_overwrite :
  forall (A : Type) (N : Numeric A) (K T r purchase_price : A)
         (option : string) (S_vals sigma_vals : list A) (pnl : list (list A)),
    List.length pnl = List.length S_vals ->
    (forall row, In row pnl -> List.length row = List.length sigma_vals) ->
    heatmap_loops set_cell K T r purchase_price option S_vals sigma_vals pnl
    = map (fun S =>
             map (fun sig =>
                    sub (heatmap_price K T r option S sig) purchase_price)
                 sigma_vals)
          S_vals.
Proof.
  intros A N K T r purchase_price option S_vals sigma_vals pnl Hlen Hrows.
  unfold heatmap_loops, enumerate.
  apply (heatmap_loops_from K T r purchase_price option sigma_vals S_vals
           [] pnl Hlen Hrows).
Qed.

Lemma heatmap_loops_overwrite_witness :
  heatmap_loops (A := R) set_cell 100 1 0.05 10 "call"
    [90; 110]%R [0.2; 0.3; 0.4]%R [[7; 7; 7]; [7; 7; 7]]%R
  = [[black_scholes_call 90 100 1 0.05 0.2 - 10;
      black_scholes_call 90 100 1 0.05 0.3 - 10;
      black_scholes_call 90 100 1 0.05 0.4 - 10];
     [black_scholes_call 110 100 1 0.05 0.2 - 10;
      black_scholes_call 110 100 1 0.05 0.3 - 10;
      black_scholes_call 110 100 1 0.05 0.4 - 10]]%R.
Proof.
  rewrite heatmap_loops_overwrite.
  - reflexivity.
  - reflexivity.
  - intros row [<- | [<- | []]]; reflexivity.
Defined.
